(** * advanced-vector: [RawMemory<T>] and [Vector<T>] of [vector.h]

    A shallow embedding of the container of [src/advanced-vector/vector.h].

    - A raw block is a list of slots; a slot is either uninitialized memory
      ([Raw]) or holds a constructed object ([Live x]).
    - [size_t] is [nat]: a capacity is the number of slots of a block that
      was really allocated, so [capacity * 2] stays far below [2^64].
    - A block whose size the vector derives from its own size or capacity
      (one slot, twice the capacity, the size of the vector copied) is
      taken to be allocated.  Where the caller chooses the size,
      [Reserve(n)], [Resize(n)] and [Vector(n)], the allocation is written
      out in [Reserve_in], [Resize_in] and [Vector_sized_in]: the product
      [n * sizeof(T)] is computed in 64 bits and [operator new] may answer
      with [std::bad_alloc].  [Reserve], [Resize] and [Vector_sized] are
      these operations on a heap that grants a request that does not wrap
      ([Reserve_in_fits], [Resize_in_fits], [Vector_sized_in_fits]).
    - Iterators and references into a vector are slot indices
      ([pos - cbegin()]).
    - An operation ends in one of three ways: it returns ([Ok]), it leaves
      through an exception ([Throw], with the state the object is left in),
      or it runs into undefined behaviour ([UB]: a failed [assert], a read
      of uninitialized memory, an invalid iterator range).
    - Constructors of [T] taking arguments, copy construction, copy
      assignment and value initialisation may throw; move construction and
      move assignment are taken not to throw, the trait
      [is_nothrow_move_constructible] only selects the transfer strategy.
      A statement that would be false of a type whose moves throw has as
      a hypothesis the trait under which the code runs no such move
      ([is_nothrow_move_constructible], or [strong_transfer] where only
      the transfer to a new block matters).
    - A [const T&] argument may refer to an element of the vector itself; a
      [T&&] argument is an object outside of it.
    - [std::move] and [std::move_backward] are the element-wise loops of the
      standard, also where source and destination overlap; a range whose
      end lies before its start is undefined behaviour. *)

From stdpp Require Import base numbers option list.
From Stdlib Require Import ZArith.

(** ** The element type [T] and what the container uses of it *)

Class Element (T : Type) := {
  Args : Type;                          (* argument packs other than a single T *)
  construct : Args → option T;          (* T(args...); None: it throws *)
  value_init : option T;                (* T(); None: it throws *)
  copy_throws : T → bool;               (* T(const T&) throws on this source *)
  assign_throws : T → bool;             (* operator=(const T&) throws on this source *)
  moved_from : T → T;                   (* what a source holds after std::move out of it *)
  self_moved : T → T;                   (* what x holds after x = std::move(x) *)
  is_nothrow_move_constructible : bool;
  is_copy_constructible : bool;
}.

(** ** Results *)

(** A computation that touches no vector state of its own. *)
Inductive res (A : Type) : Type :=
  | Val (a : A)
  | Exn
  | Undef.
Arguments Val {A} a.
Arguments Exn {A}.
Arguments Undef {A}.

Definition res_bind {A B} (r : res A) (k : A → res B) : res B :=
  match r with
  | Val a => k a
  | Exn => Exn
  | Undef => Undef
  end.

Notation "x ←r r ; k" := (res_bind r (λ x, k))
  (at level 20, r at level 100, k at level 200, only parsing, right associativity).
Notation "' p ←r r ; k" := (res_bind r (λ p, k))
  (at level 20, p pattern, r at level 100, k at level 200, only parsing, right associativity).

(** A member function of an object with state [S]. *)
Inductive outcome (S A : Type) : Type :=
  | Ok (s : S) (a : A)
  | Throw (s : S)
  | UB.
Arguments Ok {S A} s a.
Arguments Throw {S A} s.
Arguments UB {S A}.

(** Run [r]; an exception leaves the object in state [s]. *)
Definition try {S A B} (s : S) (r : res A) (k : A → outcome S B) : outcome S B :=
  match r with
  | Val a => k a
  | Exn => Throw s
  | Undef => UB
  end.

Notation "x ←[ s ] r ; k" := (try s r (λ x, k))
  (at level 20, r at level 100, k at level 200, only parsing, right associativity).
Notation "' p ←[ s ] r ; k" := (try s r (λ p, k))
  (at level 20, p pattern, r at level 100, k at level 200, only parsing, right associativity).

(** ** Raw blocks and the algorithms of <memory> and <algorithm> *)

Inductive slot (T : Type) : Type :=
  | Raw
  | Live (x : T).
Arguments Raw {T}.
Arguments Live {T} x.

Abbreviation block T := (list (slot T)) (only parsing).

Section Algorithms.
Context {T : Type} `{Element T}.

(** Read the object in slot [i]. *)
Definition get (b : block T) (i : nat) : res T :=
  match b !! i with
  | Some (Live x) => Val x
  | _ => Undef
  end.

(** [new (p) T(...)] with the already evaluated value [x]. *)
Definition construct_at (b : block T) (i : nat) (x : T) : res (block T) :=
  if i <? length b then Val (<[i := Live x]> b) else Undef.

(** [p->~T()] *)
Definition destroy_at (b : block T) (i : nat) : res (block T) :=
  match b !! i with
  | Some (Live _) => Val (<[i := Raw]> b)
  | _ => Undef
  end.

(** [T(const T&)] *)
Definition copy_construct (x : T) : res T :=
  if copy_throws x then Exn else Val x.

(** [d = std::move(s)] for two slots [d], [s] of one block. *)
Definition move_assign (b : block T) (d s : nat) : res (block T) :=
  x ←r get b s;
  _ ←r get b d;
  if d =? s then Val (<[d := Live (self_moved x)]> b)
  else Val (<[d := Live x]> (<[s := Live (moved_from x)]> b)).

(** [std::uninitialized_copy_n(src + first, n, dst + d_first)]; when a copy
    throws the copies made so far are destroyed again, so [dst] is as
    before. *)
Fixpoint uninitialized_copy_n (src : block T) (first n : nat)
    (dst : block T) (d_first : nat) : res (block T) :=
  match n with
  | 0 => Val dst
  | S n' =>
      x ←r get src first;
      y ←r copy_construct x;
      dst' ←r construct_at dst d_first y;
      uninitialized_copy_n src (S first) n' dst' (S d_first)
  end.

(** [std::uninitialized_move_n(src + first, n, dst + d_first)]; gives the
    source block (its objects now moved-from) and the destination. *)
Fixpoint uninitialized_move_n (src : block T) (first n : nat)
    (dst : block T) (d_first : nat) : res (block T * block T) :=
  match n with
  | 0 => Val (src, dst)
  | S n' =>
      x ←r get src first;
      dst' ←r construct_at dst d_first x;
      uninitialized_move_n (<[first := Live (moved_from x)]> src) (S first) n'
        dst' (S d_first)
  end.

(** The [if constexpr (is_nothrow_move_constructible_v<T> ||
    !is_copy_constructible_v<T>)] choice between the two. *)
Definition transfer_n (src : block T) (first n : nat)
    (dst : block T) (d_first : nat) : res (block T * block T) :=
  if is_nothrow_move_constructible || negb is_copy_constructible
  then uninitialized_move_n src first n dst d_first
  else dst' ←r uninitialized_copy_n src first n dst d_first; Val (src, dst').

(** [std::destroy_n(b + first, n)] *)
Fixpoint destroy_n (b : block T) (first n : nat) : res (block T) :=
  match n with
  | 0 => Val b
  | S n' => b' ←r destroy_at b first; destroy_n b' (S first) n'
  end.

(** [std::uninitialized_value_construct_n(b + first, n)] *)
Fixpoint uninitialized_value_construct_n (b : block T) (first n : nat)
    : res (block T) :=
  match n with
  | 0 => Val b
  | S n' =>
      match value_init with
      | None => Exn
      | Some x =>
          b' ←r construct_at b first x;
          uninitialized_value_construct_n b' (S first) n'
      end
  end.

(** [std::move(b + first, b + last, b + d_first)]: front to back. *)
Fixpoint move_loop (n : nat) (b : block T) (first d_first : nat) : res (block T) :=
  match n with
  | 0 => Val b
  | S n' => b' ←r move_assign b d_first first; move_loop n' b' (S first) (S d_first)
  end.

Definition std_move (b : block T) (first last d_first : nat) : res (block T) :=
  if last <? first then Undef else move_loop (last - first) b first d_first.

(** [std::move_backward(b + first, b + last, b + d_last)]: back to front,
    each step decrements [last] and [d_last] and move-assigns slot [last] to
    slot [d_last], while [first != last]. *)
Fixpoint move_backward_loop (n : nat) (b : block T) (last d_last : nat)
    : res (block T) :=
  match n with
  | 0 => Val b
  | S n' =>
      match last, d_last with
      | S l, S d => b' ←r move_assign b d l; move_backward_loop n' b' l d
      | _, _ => Undef
      end
  end.

Definition move_backward (b : block T) (first last d_last : nat) : res (block T) :=
  if last <? first then Undef else move_backward_loop (last - first) b last d_last.

(** The loop [for (i = 0; i < n; ++i) data_[i] = other.data_[i];] of the
    copy assignment.  An assignment that throws leaves the elements
    assigned so far in place: the block reached is returned with the
    result. *)
Fixpoint assign_loop (n : nat) (src dst : block T) (i : nat)
    : block T * res unit :=
  match n with
  | 0 => (dst, Val ())
  | S n' =>
      match get src i, get dst i with
      | Val x, Val _ =>
          if assign_throws x then (dst, Exn)
          else assign_loop n' src (<[i := Live x]> dst) (S i)
      | _, _ => (dst, Undef)
      end
  end.
End Algorithms.

(** ** [RawMemory<T>] *)

Record RawMemory (T : Type) : Type := mkRaw {
  buffer_ : block T;
  capacity_ : nat;
}.
Arguments mkRaw {T} buffer_ capacity_.
Arguments buffer_ {T} r.
Arguments capacity_ {T} r.

Module Raw.
Section RawMemory.
Context {T : Type}.

(** [Allocate(n)]: [n] uninitialized slots, the null block for [n = 0]. *)
Definition Allocate (n : nat) : block T := replicate n Raw.

(** [RawMemory() = default] *)
Definition empty : RawMemory T := mkRaw [] 0.

(** [explicit RawMemory(size_t capacity)] *)
Definition make (capacity : nat) : RawMemory T :=
  mkRaw (Allocate capacity) capacity.

(** [Swap(other)]: this and other afterwards. *)
Definition Swap (this other : RawMemory T) : RawMemory T * RawMemory T :=
  (mkRaw (buffer_ other) (capacity_ other), mkRaw (buffer_ this) (capacity_ this)).

(** [RawMemory(RawMemory&& other)]: the new object and other afterwards. *)
Definition move_ctor (other : RawMemory T) : RawMemory T * RawMemory T :=
  Swap empty other.

(** [operator+(offset)], with its [assert(offset <= capacity_)]. *)
Definition plus (m : RawMemory T) (offset : nat) : res nat :=
  if offset <=? capacity_ m then Val offset else Undef.

(** [operator[](index)], with its [assert(index < capacity_)]: the slot
    referred to. *)
Definition at_ (m : RawMemory T) (index : nat) : res nat :=
  if index <? capacity_ m then Val index else Undef.

Definition GetAddress (m : RawMemory T) : block T := buffer_ m.
Definition Capacity (m : RawMemory T) : nat := capacity_ m.

(** The block after the algorithms wrote through [GetAddress()]. *)
Definition store (m : RawMemory T) (b : block T) : RawMemory T :=
  mkRaw b (capacity_ m).
End RawMemory.
End Raw.

(** ** [Vector<T>] *)

Record Vector (T : Type) : Type := mkVector {
  data_ : RawMemory T;
  size_ : nat;
}.
Arguments mkVector {T} data_ size_.
Arguments data_ {T} v.
Arguments size_ {T} v.

(** A [const T&] argument: a reference to the element in slot [i] of the
    vector's own storage, or to an object with value [x] outside of it. *)
Inductive cref (T : Type) : Type :=
  | Own (i : nat)
  | Ext (x : T).
Arguments Own {T} i.
Arguments Ext {T} x.

(** The argument pack of [Emplace] and [EmplaceBack]. *)
Inductive init (T : Type) `{Element T} : Type :=
  | Lvalue (r : cref T)       (* a const T&: the element is copy-constructed *)
  | Rvalue (x : T)            (* a T&&: the element is move-constructed *)
  | Pack (a : Args).          (* anything else: T(args...) *)
Arguments Lvalue {T _} r.
Arguments Rvalue {T _} x.
Arguments Pack {T _} a.

(** The right-hand side of an assignment or the argument of [Swap]: the
    object itself ([this == &other]) or another vector. *)
Inductive operand (T : Type) : Type :=
  | This
  | Other (w : Vector T).
Arguments This {T}.
Arguments Other {T} w.

Section Vector.
Context {T : Type} `{Element T}.

Implicit Types (v w : Vector T) (b : block T).

Definition buf v : block T := Raw.GetAddress (data_ v).

Definition set_buf v b : Vector T := mkVector (Raw.store (data_ v) b) (size_ v).

(** [Size()], [Capacity()] *)
Definition Size v : nat := size_ v.
Definition Capacity v : nat := Raw.Capacity (data_ v).

(** [begin()], [end()] as slot indices. *)
Definition begin_ v : nat := 0.
Definition end_ v : nat := size_ v.

(** [operator[](index)], with its [assert(index < size_)]: the slot
    referred to. *)
Definition index v (i : nat) : res nat :=
  if i <? size_ v then Raw.at_ (data_ v) i else Undef.

(** The value a [const T&] refers to. *)
Definition deref v (r : cref T) : res T :=
  match r with
  | Own i => get (buf v) i
  | Ext x => Val x
  end.

(** [T(std::forward<Args>(args)...)], evaluated in the current state. *)
Definition construct_T v (args : init T) : res T :=
  match args with
  | Lvalue r => x ←r deref v r; copy_construct x
  | Rvalue x => Val x
  | Pack a => match construct a with Some x => Val x | None => Exn end
  end.

(** [Vector() = default] *)
Definition Vector_default : Vector T := mkVector Raw.empty 0.

(** [explicit Vector(size_t size)] *)
Definition Vector_sized (size : nat) : res (Vector T) :=
  let data := Raw.make size in
  b ←r uninitialized_value_construct_n (Raw.GetAddress data) 0 size;
  Val (mkVector (Raw.store data b) size).

(** [Vector(const Vector& other)] *)
Definition Vector_copy (other : Vector T) : res (Vector T) :=
  let data := Raw.make (size_ other) in
  let size := size_ other in
  b ←r uninitialized_copy_n (buf other) 0 size (Raw.GetAddress data) 0;
  Val (mkVector (Raw.store data b) size).

(** [Vector(Vector&& other)]: the new vector and other afterwards. *)
Definition Vector_move (other : Vector T) : Vector T * Vector T :=
  let '(data, odata) := Raw.move_ctor (data_ other) in
  (mkVector data (size_ other), mkVector odata 0).

(** [Swap(other)] for another vector: this and other afterwards. *)
Definition Swap_with v w : Vector T * Vector T :=
  let '(d, od) := Raw.Swap (data_ v) (data_ w) in
  (mkVector d (size_ w), mkVector od (size_ v)).

(** [Swap(other)] *)
Definition Swap v (other : operand T) : Vector T * operand T :=
  match other with
  | This => (v, This)
  | Other w => let '(v', w') := Swap_with v w in (v', Other w')
  end.

(** [~Vector()] *)
Definition Vector_destroy v : res (block T) :=
  destroy_n (buf v) 0 (size_ v).

(** [operator=(const Vector& other)] *)
Definition copy_assign v (other : operand T) : outcome (Vector T) unit :=
  match other with
  | This => Ok v ()
  | Other w =>
      if Capacity v <? size_ w then
        rhs_copy ←[v] Vector_copy w;
        let '(v', rhs_copy) := Swap_with v rhs_copy in
        _ ←[v'] Vector_destroy rhs_copy;
        Ok v' ()
      else if size_ w <? size_ v then
        match assign_loop (size_ w) (buf w) (buf v) 0 with
        | (b, Val _) =>
            b' ←[set_buf v b] destroy_n b (size_ w) (size_ v - size_ w);
            Ok (mkVector (Raw.store (data_ v) b') (size_ w)) ()
        | (b, Exn) => Throw (set_buf v b)
        | (_, Undef) => UB
        end
      else
        match assign_loop (size_ v) (buf w) (buf v) 0 with
        | (b, Val _) =>
            b' ←[set_buf v b]
              uninitialized_copy_n (buf w) (size_ v) (size_ w - size_ v) b (size_ v);
            Ok (mkVector (Raw.store (data_ v) b') (size_ w)) ()
        | (b, Exn) => Throw (set_buf v b)
        | (_, Undef) => UB
        end
  end.

(** [operator=(Vector&& other)]: this and other afterwards. *)
Definition move_assign_vec v (other : operand T) : Vector T * operand T :=
  match other with
  | This => (v, This)
  | Other w =>
      let '(d, od) := Raw.Swap (data_ v) (data_ w) in
      (mkVector d (size_ w), Other (mkVector od (size_ v)))
  end.

(** [Reserve(new_capacity)] *)
Definition Reserve (new_capacity : nat) v : outcome (Vector T) unit :=
  if new_capacity <=? Capacity v then Ok v ()
  else
    let new_data := Raw.make new_capacity in
    '(old, nb) ←[v] transfer_n (buf v) 0 (size_ v) (Raw.GetAddress new_data) 0;
    old' ←[v] destroy_n old 0 (size_ v);
    let '(d, _) := Raw.Swap (Raw.store (data_ v) old') (Raw.store new_data nb) in
    Ok (mkVector d (size_ v)) ().

(** The body shared by both [PushBack]s and [EmplaceBack] once the
    capacity is not zero; [args] says how the new element is made. *)
Definition push_body (args : init T) v : outcome (Vector T) unit :=
  if size_ v =? Capacity v then
    let new_data := Raw.make (Capacity v * 2) in
    p ←[v] Raw.plus new_data (size_ v);
    x ←[v] construct_T v args;
    nb ←[v] construct_at (Raw.GetAddress new_data) p x;
    '(old, nb) ←[v] transfer_n (buf v) 0 (size_ v) nb 0;
    old' ←[v] destroy_n old 0 (size_ v);
    let '(d, _) := Raw.Swap (Raw.store (data_ v) old') (Raw.store new_data nb) in
    Ok (mkVector d (S (size_ v))) ()
  else
    x ←[v] construct_T v args;
    b ←[v] construct_at (buf v) (size_ v) x;
    Ok (mkVector (Raw.store (data_ v) b) (S (size_ v))) ().

(** [if (data_.Capacity() == 0) Reserve(1);] *)
Definition reserve_first v : outcome (Vector T) unit :=
  if Capacity v =? 0 then Reserve 1 v else Ok v ().

Definition then_ {A B} (o : outcome (Vector T) A)
    (k : Vector T → A → outcome (Vector T) B) : outcome (Vector T) B :=
  match o with
  | Ok s a => k s a
  | Throw s => Throw s
  | UB => UB
  end.

(** [PushBack(const T& value)] *)
Definition PushBack (value : cref T) v : outcome (Vector T) unit :=
  then_ (reserve_first v) (λ v _, push_body (Lvalue value) v).

(** [PushBack(T&& value)] *)
Definition PushBack_move (value : T) v : outcome (Vector T) unit :=
  then_ (reserve_first v) (λ v _, push_body (Rvalue value) v).

(** [EmplaceBack(args...)]: returns [data_[size_ - 1]]. *)
Definition EmplaceBack (args : init T) v : outcome (Vector T) nat :=
  then_ (reserve_first v) (λ v _,
    then_ (push_body args v) (λ v _,
      r ←[v] Raw.at_ (data_ v) (size_ v - 1);
      Ok v r)).

(** [PopBack()] *)
Definition PopBack v : outcome (Vector T) unit :=
  if size_ v =? 0 then UB
  else
    let size := size_ v - 1 in
    p ←[v] Raw.at_ (data_ v) size;
    b ←[v] destroy_at (buf v) p;
    Ok (mkVector (Raw.store (data_ v) b) size) ().

(** [Resize(new_size)] *)
Definition Resize (new_size : nat) v : outcome (Vector T) unit :=
  if size_ v <? new_size then
    then_ (if Capacity v <? new_size then Reserve new_size v else Ok v ())
      (λ v _,
        b ←[v] uninitialized_value_construct_n (buf v) (size_ v) (new_size - size_ v);
        Ok (mkVector (Raw.store (data_ v) b) new_size) ())
  else if new_size <? size_ v then
    b ←[v] destroy_n (buf v) new_size (size_ v - new_size);
    Ok (mkVector (Raw.store (data_ v) b) new_size) ()
  else Ok v ().

(** [Emplace(pos, args...)] with [index = pos - cbegin()]. *)
Definition Emplace (pos : nat) (args : init T) v : outcome (Vector T) nat :=
  if size_ v =? Capacity v then
    let new_data := Raw.make (if size_ v =? 0 then 1 else Capacity v * 2) in
    let index := pos in
    p ←[v] Raw.plus new_data index;
    x ←[v] construct_T v args;
    nb ←[v] construct_at (Raw.GetAddress new_data) p x;
    '(old, nb) ←[v] transfer_n (buf v) 0 index nb 0;
    '(old, nb) ←[v] transfer_n old index (size_ v - index) nb (index + 1);
    old' ←[v] destroy_n old 0 (size_ v);
    let '(d, _) := Raw.Swap (Raw.store (data_ v) old') (Raw.store new_data nb) in
    let v' := mkVector d (S (size_ v)) in
    r ←[v'] Raw.at_ (data_ v') index;
    Ok v' r
  else
    let index := pos in
    temp ←[v] construct_T v args;
    (* data_.GetAddress() + size_ - 1 lies before the block when size_ is 0 *)
    if size_ v =? 0 then UB
    else
      b ←[v] move_backward (buf v) (size_ v - 1) (size_ v) (size_ v);
      b ←[v] move_backward b index (end_ v - 1) (end_ v);
      b ←[v] construct_at b index temp;
      Ok (mkVector (Raw.store (data_ v) b) (S (size_ v))) index.

(** The test of [Insert] that [value] lies in [[&data_[0], &data_[size_ - 1]]]. *)
Definition aliases v (value : cref T) : res bool :=
  first ←r Raw.at_ (data_ v) 0;
  last ←r Raw.at_ (data_ v) (size_ v - 1);
  match value with
  | Own i => Val ((first <=? i) && (i <=? last))
  | Ext _ => Val false
  end.

(** [Insert(pos, const T& value)] *)
Definition Insert (pos : nat) (value : cref T) v : outcome (Vector T) nat :=
  if negb (size_ v =? 0) then
    inside ←[v] aliases v value;
    if inside then
      x ←[v] deref v value;
      temp ←[v] copy_construct x;
      Emplace pos (Rvalue temp) v
    else Emplace pos (Lvalue value) v
  else Emplace pos (Lvalue value) v.

(** [Insert(pos, T&& value)] *)
Definition Insert_move (pos : nat) (value : T) v : outcome (Vector T) nat :=
  Emplace pos (Rvalue value) v.

(** [Erase(pos)] with [index = pos - cbegin()]. *)
Definition Erase (pos : nat) v : outcome (Vector T) nat :=
  if negb ((begin_ v <=? pos) && (pos <? end_ v)) then UB
  else
    let index := pos in
    b ←[v] std_move (buf v) (begin_ v + index + 1) (end_ v) (begin_ v + index);
    b ←[v] destroy_at b (begin_ v + size_ v - 1);
    let v' := mkVector (Raw.store (data_ v) b) (size_ v - 1) in
    r ←[v'] Raw.at_ (data_ v') index;
    Ok v' r.

End Vector.

(** ** Two element types *)

(** [int]: nothing throws, moving leaves the source as it was. *)
#[export] Instance int_element : Element Z := {|
  Args := Z;
  construct := Some;
  value_init := Some 0%Z;
  copy_throws := λ _, false;
  assign_throws := λ _, false;
  moved_from := id;
  self_moved := id;
  is_nothrow_move_constructible := true;
  is_copy_constructible := true;
|}.

(** An element type whose constructors can throw: an object carries a
    number and a flag; constructing it from a flagged argument, copying or
    copy-assigning from a flagged object throws.  Its move constructor is
    not [noexcept], so reallocation transfers by copy, and moving out of an
    object leaves the number 0 behind. *)
Inductive obj : Type := Obj (n : nat) (flagged : bool).

Definition obj_flagged (o : obj) : bool := let 'Obj _ f := o in f.

#[export] Instance obj_element : Element obj := {|
  Args := nat * bool;
  construct := λ a, if a.2 then None else Some (Obj a.1 false);
  value_init := Some (Obj 0 false);
  copy_throws := obj_flagged;
  assign_throws := obj_flagged;
  moved_from := λ o, Obj 0 (obj_flagged o);
  self_moved := λ o, o;
  is_nothrow_move_constructible := false;
  is_copy_constructible := true;
|}.

(** An element type without a usable default constructor: [T()] throws,
    nothing else does. *)
Inductive token : Type := Token (n : nat).

#[export] Instance token_element : Element token := {|
  Args := nat;
  construct := λ n, Some (Token n);
  value_init := None;
  copy_throws := λ _, false;
  assign_throws := λ _, false;
  moved_from := λ t, t;
  self_moved := λ t, t;
  is_nothrow_move_constructible := true;
  is_copy_constructible := true;
|}.

(** ** The invariant and the element sequence *)

Section Invariant.
Context {T : Type} `{Element T}.

Implicit Types (v w : Vector T) (xs : list T).

Definition is_live (s : slot T) : bool :=
  match s with Live _ => true | Raw => false end.

Definition is_raw (s : slot T) : bool :=
  match s with Live _ => false | Raw => true end.

(** What the indices [0, Size()) hold. *)
Definition contents v : list (slot T) := take (size_ v) (buf v).

(** Indices [0, size) hold constructed objects, indices [size, capacity)
    are uninitialized, [size <= capacity], and the block has [capacity]
    slots. *)
Definition invariant v : bool :=
  (size_ v <=? Capacity v) && (length (buf v) =? Capacity v)
  && forallb is_live (take (size_ v) (buf v))
  && forallb is_raw (drop (size_ v) (buf v)).

(** The vector with elements [xs] and capacity [cap]. *)
Definition vec xs (cap : nat) : Vector T :=
  mkVector (mkRaw ((Live <$> xs) ++ replicate (cap - length xs) Raw) cap) (length xs).

(** [v] satisfies the invariant and its elements are [xs], in order. *)
Definition holds v xs : Prop :=
  length xs ≤ Capacity v ∧ v = vec xs (Capacity v).

(** Whether reallocation moves the elements over (or copies them). *)
Definition by_move : bool :=
  is_nothrow_move_constructible || negb is_copy_constructible.

(** What the objects of the old block hold after the transfer. *)
Definition left_behind xs : list T :=
  if by_move then moved_from <$> xs else xs.

(** Whether transferring [xs] to a new block throws. *)
Definition transfer_throws xs : bool :=
  negb by_move && existsb copy_throws xs.

(** The transfer to a new block runs no move that can throw: the moves of
    [T] are [noexcept], or [T] is copy-constructible and its elements are
    copied. *)
Definition strong_transfer : bool :=
  is_nothrow_move_constructible || is_copy_constructible.

(** What the slot holding [y] holds after [ys], the objects behind it,
    were move-assigned one slot toward the head, over it and each other. *)
Definition residue (y : T) xs : T :=
  match last xs with
  | Some z => moved_from z
  | None => y
  end.

(** The new element [T(args...)] when the elements are [xs]. *)
Definition made xs (args : init T) : res T :=
  match args with
  | Lvalue (Own i) =>
      match xs !! i with
      | Some x => copy_construct x
      | None => Undef
      end
  | Lvalue (Ext x) => copy_construct x
  | Rvalue x => Val x
  | Pack a => match construct a with Some x => Val x | None => Exn end
  end.

(** Whether the copy assignment of a vector with elements [ys] to one with
    elements [xs] and capacity [cap] throws. *)
Definition assignment_throws xs (cap : nat) ys : bool :=
  if cap <? length ys then existsb copy_throws ys
  else existsb assign_throws (take (length xs) ys)
       || existsb copy_throws (drop (length xs) ys).

(** The capacity [PushBack] and [EmplaceBack] leave behind when they return. *)
Definition grown (size cap : nat) : nat :=
  if cap =? 0 then 1 else if size =? cap then cap * 2 else cap.
End Invariant.

(** ** Sequences of operations on one vector *)

Inductive op (T : Type) `{Element T} : Type :=
  | OpPushBack (value : cref T)
  | OpPushBackMove (value : T)
  | OpEmplaceBack (args : init T)
  | OpPopBack
  | OpInsert (pos : nat) (value : cref T)
  | OpInsertMove (pos : nat) (value : T)
  | OpEmplace (pos : nat) (args : init T)
  | OpErase (pos : nat)
  | OpReserve (new_capacity : nat)
  | OpResize (new_size : nat)
  | OpCopyAssign (other : operand T)
  | OpMoveAssign (other : operand T)
  | OpSwap (other : operand T).
Arguments OpPushBack {T _} value.
Arguments OpPushBackMove {T _} value.
Arguments OpEmplaceBack {T _} args.
Arguments OpPopBack {T _}.
Arguments OpInsert {T _} pos value.
Arguments OpInsertMove {T _} pos value.
Arguments OpEmplace {T _} pos args.
Arguments OpErase {T _} pos.
Arguments OpReserve {T _} new_capacity.
Arguments OpResize {T _} new_size.
Arguments OpCopyAssign {T _} other.
Arguments OpMoveAssign {T _} other.
Arguments OpSwap {T _} other.

Section Runs.
Context {T : Type} `{Element T}.

Definition forget {A} (o : outcome (Vector T) A) : outcome (Vector T) unit :=
  match o with
  | Ok s _ => Ok s ()
  | Throw s => Throw s
  | UB => UB
  end.

Definition step (o : op T) (v : Vector T) : outcome (Vector T) unit :=
  match o with
  | OpPushBack value => PushBack value v
  | OpPushBackMove value => PushBack_move value v
  | OpEmplaceBack args => forget (EmplaceBack args v)
  | OpPopBack => PopBack v
  | OpInsert pos value => forget (Insert pos value v)
  | OpInsertMove pos value => forget (Insert_move pos value v)
  | OpEmplace pos args => forget (Emplace pos args v)
  | OpErase pos => forget (Erase pos v)
  | OpReserve n => Reserve n v
  | OpResize n => Resize n v
  | OpCopyAssign other => copy_assign v other
  | OpMoveAssign other => Ok (move_assign_vec v other).1 ()
  | OpSwap other => Ok (Swap v other).1 ()
  end.

(** Run the operations in order; an exception is caught by the caller,
    who goes on with the vector as the operation left it. *)
Fixpoint run (os : list (op T)) (v : Vector T) : option (Vector T) :=
  match os with
  | [] => Some v
  | o :: os =>
      match step o v with
      | Ok s _ | Throw s => run os s
      | UB => None
      end
  end.

(** The insertion that shifts elements inside the block. *)
Definition shifts_in_place (o : op T) (v : Vector T) : bool :=
  match o with
  | OpInsert _ _ | OpInsertMove _ _ | OpEmplace _ _ => negb (size_ v =? Capacity v)
  | _ => false
  end.

(** An operation that returns or throws leaves the invariant in place. *)
Definition kept {A} (o : outcome (Vector T) A) : Prop :=
  match o with
  | Ok s _ | Throw s => invariant s = true
  | UB => True
  end.

(** The other vector of an operation satisfies the invariant. *)
Definition operand_ok (o : op T) : bool :=
  match o with
  | OpCopyAssign (Other w) | OpMoveAssign (Other w) | OpSwap (Other w) => invariant w
  | _ => true
  end.

(** No operation of the run is an insertion inside the block, and the other
    vectors satisfy the invariant. *)
Fixpoint reallocating (os : list (op T)) (v : Vector T) : bool :=
  match os with
  | [] => true
  | o :: os =>
      negb (shifts_in_place o v) && operand_ok o
      && match step o v with
         | Ok s _ | Throw s => reallocating os s
         | UB => true
         end
  end.
End Runs.

(** [PushBack] of the values [xs], one after the other. *)
Fixpoint push_all {T : Type} `{Element T} (xs : list T) (v : Vector T)
    : option (Vector T) :=
  match xs with
  | [] => Some v
  | x :: xs =>
      match PushBack (Ext x) v with
      | Ok v' _ => push_all xs v'
      | _ => None
      end
  end.

(** The capacity after [n] pushes into a default-constructed vector: the
    least power of two that is at least [n], and 0 before the first push. *)
Definition capacity_after (n : nat) : nat :=
  if n =? 0 then 0 else 2 ^ Nat.log2_up n.

(** ** Reading elements, capacities, and vectors used as stacks *)

Section Reading.
Context {T : Type} `{Element T}.

(** Reading [v[i]]: [operator[]] of the vector, then the object in the slot. *)
Definition read (v : Vector T) (i : nat) : res T :=
  p ←r index v i; get (buf v) p.

(** The operation leaves a capacity of at least [c] when it returns or
    throws. *)
Definition no_less {A} (c : nat) (o : outcome (Vector T) A) : Prop :=
  match o with
  | Ok s _ | Throw s => c ≤ Capacity s
  | UB => True
  end.

(** The operation does not take over the storage of another vector. *)
Definition keeps_storage (o : op T) : bool :=
  match o with
  | OpMoveAssign (Other _) | OpSwap (Other _) => false
  | _ => true
  end.

(** [PushBack(T&&)] and [PopBack] as operations on a stack. *)
Inductive stack_op : Type :=
  | Push (x : T)
  | Pop.

Definition to_op (o : stack_op) : op T :=
  match o with
  | Push x => OpPushBackMove x
  | Pop => OpPopBack
  end.

(** The list as a stack, top at the end; [None] when an empty stack is
    popped. *)
Fixpoint stack_run (os : list stack_op) (xs : list T) : option (list T) :=
  match os with
  | [] => Some xs
  | Push x :: os => stack_run os (xs ++ [x])
  | Pop :: os =>
      match xs with
      | [] => None
      | _ => stack_run os (take (length xs - 1) xs)
      end
  end.

Fixpoint pushes (os : list stack_op) : nat :=
  match os with
  | [] => 0
  | Push _ :: os => S (pushes os)
  | Pop :: os => pushes os
  end.

Fixpoint pops (os : list stack_op) : nat :=
  match os with
  | [] => 0
  | Push _ :: os => pops os
  | Pop :: os => S (pops os)
  end.
End Reading.
Arguments stack_op T : clear implicits.

(** ** Blocks of a size the caller chooses *)

(** [Reserve(n)], [Resize(n)] and [Vector(n)] ask for a block of as many
    slots as the caller says.  For them the allocation is written out:
    [sizeof(T)], the product [n * sizeof(T)] in the 64 bits of [size_t], and
    an [operator new] that answers a request for so many bytes with a block
    or with [std::bad_alloc]. *)
Record allocator : Type := mkAllocator {
  sizeof : positive;            (* sizeof(T) *)
  grants : N → bool;            (* operator new(bytes) returns a block *)
}.

(** [size_t] holds the numbers below [2^64]. *)
Definition size_max : N := 2 ^ 64.

(** A heap with [free] bytes left, for elements of [size] bytes. *)
Definition heap_with (size : positive) (free : N) : allocator :=
  mkAllocator size (λ bytes, (bytes <=? free)%N).

Section Allocation.
Context {T : Type} `{Element T}.

Implicit Types (a : allocator) (v : Vector T).

(** [n * sizeof(T)] as [size_t] computes it. *)
Definition bytes_of a (n : nat) : N :=
  ((N.of_nat n * Npos (sizeof a)) mod size_max)%N.

(** [Allocate(n)]: the null block for [n = 0], else what [operator new]
    gives for [n * sizeof(T)] bytes, which is room for fewer than [n]
    elements when the product wrapped around. *)
Definition Allocate_in a (n : nat) : res (block T) :=
  if n =? 0 then Val []
  else if grants a (bytes_of a n)
       then Val (replicate (N.to_nat (bytes_of a n / Npos (sizeof a))) Raw)
       else Exn.

(** [explicit RawMemory(size_t capacity)] *)
Definition make_in a (capacity : nat) : res (RawMemory T) :=
  b ←r Allocate_in a capacity;
  Val (mkRaw b capacity).

(** [n * sizeof(T)] does not wrap around. *)
Definition fits a (n : nat) : bool :=
  (N.of_nat n * Npos (sizeof a) <? size_max)%N.

(** The allocation of [n] slots does not throw. *)
Definition granted a (n : nat) : bool :=
  (n =? 0) || grants a (bytes_of a n).

(** [explicit Vector(size_t size)] *)
Definition Vector_sized_in a (size : nat) : res (Vector T) :=
  data ←r make_in a size;
  b ←r uninitialized_value_construct_n (Raw.GetAddress data) 0 size;
  Val (mkVector (Raw.store data b) size).

(** [Reserve(new_capacity)] *)
Definition Reserve_in a (new_capacity : nat) v : outcome (Vector T) unit :=
  if new_capacity <=? Capacity v then Ok v ()
  else
    new_data ←[v] make_in a new_capacity;
    '(old, nb) ←[v] transfer_n (buf v) 0 (size_ v) (Raw.GetAddress new_data) 0;
    old' ←[v] destroy_n old 0 (size_ v);
    let '(d, _) := Raw.Swap (Raw.store (data_ v) old') (Raw.store new_data nb) in
    Ok (mkVector d (size_ v)) ().

(** [Resize(new_size)] *)
Definition Resize_in a (new_size : nat) v : outcome (Vector T) unit :=
  if size_ v <? new_size then
    then_ (if Capacity v <? new_size then Reserve_in a new_size v else Ok v ())
      (λ v _,
        b ←[v] uninitialized_value_construct_n (buf v) (size_ v) (new_size - size_ v);
        Ok (mkVector (Raw.store (data_ v) b) new_size) ())
  else if new_size <? size_ v then
    b ←[v] destroy_n (buf v) new_size (size_ v - new_size);
    Ok (mkVector (Raw.store (data_ v) b) new_size) ()
  else Ok v ().

(** One operation of a run, with the allocator for [Reserve] and [Resize]. *)
Definition step_in a (o : op T) v : outcome (Vector T) unit :=
  match o with
  | OpReserve n => Reserve_in a n v
  | OpResize n => Resize_in a n v
  | _ => step o v
  end.

Fixpoint run_in a (os : list (op T)) v : option (Vector T) :=
  match os with
  | [] => Some v
  | o :: os =>
      match step_in a o v with
      | Ok s _ | Throw s => run_in a os s
      | UB => None
      end
  end.

(** The size an operation asks for does not wrap around. *)
Definition request_fits a (o : op T) : bool :=
  match o with
  | OpReserve n | OpResize n => fits a n
  | _ => true
  end.

(** No operation of the run is an insertion inside the block, no request
    wraps around, and the other vectors satisfy the invariant. *)
Fixpoint reallocating_in a (os : list (op T)) v : bool :=
  match os with
  | [] => true
  | o :: os =>
      negb (shifts_in_place o v) && operand_ok o && request_fits a o
      && match step_in a o v with
         | Ok s _ | Throw s => reallocating_in a os s
         | UB => true
         end
  end.
End Allocation.

(** * Proofs *)

(** ** Slots in the middle of a block *)

Section Blocks.
Context {T : Type} `{Element T}.

Implicit Types (b pre post mid : block T) (xs ys : list T).

Lemma insert_middle {A} (l1 l2 : list A) (x y : A) (i : nat) :
  i = length l1 → <[i := y]> (l1 ++ x :: l2) = l1 ++ y :: l2.
Proof.
  intros ->. rewrite insert_app_r_alt by lia.
  by rewrite Nat.sub_diag.
Qed.

Lemma get_middle pre post (x : T) (i : nat) :
  i = length pre → get (pre ++ Live x :: post) i = Val x.
Proof. intros ->. unfold get. by rewrite list_lookup_middle. Qed.

Lemma construct_at_middle pre post (s : slot T) (x : T) (i : nat) :
  i = length pre →
  construct_at (pre ++ s :: post) i x = Val (pre ++ Live x :: post).
Proof.
  intros ->. unfold construct_at.
  rewrite length_app; simpl.
  destruct (Nat.ltb_spec (length pre) (length pre + S (length post))); [|lia].
  by rewrite insert_middle.
Qed.

Lemma destroy_at_middle pre post (x : T) (i : nat) :
  i = length pre →
  destroy_at (pre ++ Live x :: post) i = Val (pre ++ Raw :: post).
Proof.
  intros ->. unfold destroy_at.
  rewrite list_lookup_middle by done. by rewrite insert_middle.
Qed.

Lemma snoc_assoc {A} (l1 l2 : list A) (x : A) :
  l1 ++ x :: l2 = (l1 ++ [x]) ++ l2.
Proof. by rewrite <- app_assoc. Qed.

Lemma length_snoc {A} (l : list A) (x : A) : length (l ++ [x]) = S (length l).
Proof. rewrite length_app; simpl; lia. Qed.

(** ** The algorithms on a range of constructed objects *)

Lemma uninitialized_copy_n_spec ys : ∀ spre spost dpre dmid dpost first d_first,
  first = length spre → d_first = length dpre → length dmid = length ys →
  uninitialized_copy_n (spre ++ (Live <$> ys) ++ spost) first (length ys)
    (dpre ++ dmid ++ dpost) d_first
  = if existsb copy_throws ys then Exn
    else Val (dpre ++ (Live <$> ys) ++ dpost).
Proof.
  induction ys as [|y ys IH]; intros spre spost dpre dmid dpost first d_first -> -> Hlen.
  - destruct dmid; [done | discriminate].
  - destruct dmid as [|m dmid]; [discriminate|].
    cbn [length uninitialized_copy_n fmap list_fmap app existsb].
    rewrite get_middle by done. cbn [res_bind].
    unfold copy_construct. destruct (copy_throws y); [done|]. cbn [res_bind orb].
    rewrite construct_at_middle by done. cbn [res_bind].
    rewrite (snoc_assoc spre), (snoc_assoc dpre).
    rewrite (IH _ _ _ dmid) by (rewrite ?length_snoc; simpl in *; lia).
    by rewrite <- !snoc_assoc.
Qed.

Lemma uninitialized_move_n_spec ys : ∀ spre spost dpre dmid dpost first d_first,
  first = length spre → d_first = length dpre → length dmid = length ys →
  uninitialized_move_n (spre ++ (Live <$> ys) ++ spost) first (length ys)
    (dpre ++ dmid ++ dpost) d_first
  = Val (spre ++ (Live <$> (moved_from <$> ys)) ++ spost,
         dpre ++ (Live <$> ys) ++ dpost).
Proof.
  induction ys as [|y ys IH]; intros spre spost dpre dmid dpost first d_first -> -> Hlen.
  - destruct dmid; [done | discriminate].
  - destruct dmid as [|m dmid]; [discriminate|].
    cbn [length uninitialized_move_n fmap list_fmap app].
    rewrite get_middle by done. cbn [res_bind].
    rewrite construct_at_middle by done. cbn [res_bind].
    rewrite insert_middle by done.
    rewrite (snoc_assoc spre), (snoc_assoc dpre).
    rewrite (IH _ _ _ dmid) by (rewrite ?length_snoc; simpl in *; lia).
    by rewrite <- !snoc_assoc.
Qed.

Lemma transfer_n_spec ys spre spost dpre dmid dpost first d_first n :
  first = length spre → d_first = length dpre → length dmid = length ys →
  n = length ys →
  transfer_n (spre ++ (Live <$> ys) ++ spost) first n (dpre ++ dmid ++ dpost) d_first
  = if transfer_throws ys then Exn
    else Val (spre ++ (Live <$> left_behind ys) ++ spost,
              dpre ++ (Live <$> ys) ++ dpost).
Proof.
  intros Hf Hd Hlen ->. unfold transfer_n, transfer_throws, left_behind, by_move.
  destruct (_ || _); cbn [negb andb].
  - by apply uninitialized_move_n_spec.
  - rewrite (uninitialized_copy_n_spec ys _ _ _ dmid) by done.
    by destruct (existsb _ _).
Qed.

Lemma left_behind_length ys : length (left_behind ys) = length ys.
Proof. unfold left_behind. destruct by_move; by rewrite ?length_fmap. Qed.

Lemma destroy_n_spec ys : ∀ pre post first,
  first = length pre →
  destroy_n (pre ++ (Live <$> ys) ++ post) first (length ys)
  = Val (pre ++ replicate (length ys) Raw ++ post).
Proof.
  induction ys as [|y ys IH]; intros pre post first ->; [done|].
  cbn [length destroy_n fmap list_fmap app replicate].
  rewrite destroy_at_middle by done. cbn [res_bind].
  rewrite (snoc_assoc pre), IH by (by rewrite length_snoc).
  by rewrite <- snoc_assoc.
Qed.

Lemma uninitialized_value_construct_n_spec mid : ∀ pre post first,
  first = length pre →
  uninitialized_value_construct_n (pre ++ mid ++ post) first (length mid)
  = match value_init with
    | Some x => Val (pre ++ replicate (length mid) (Live x) ++ post)
    | None => if length mid =? 0 then Val (pre ++ mid ++ post) else Exn
    end.
Proof.
  induction mid as [|m mid IH]; intros pre post first ->.
  - by destruct value_init.
  - cbn [length uninitialized_value_construct_n app replicate].
    destruct value_init as [x|] eqn:Hx; [|done].
    rewrite construct_at_middle by done. cbn [res_bind].
    rewrite (snoc_assoc pre), IH by (by rewrite length_snoc).
    by rewrite <- snoc_assoc.
Qed.
End Blocks.

Section Shifts.
Context {T : Type} `{Element T}.

Implicit Types (b pre post : block T) (xs ys : list T).

Lemma move_assign_down pre post (x y : T) (d s : nat) :
  d = length pre → s = S d →
  move_assign (pre ++ Live x :: Live y :: post) d s
  = Val (pre ++ Live y :: Live (moved_from y) :: post).
Proof.
  intros -> ->. unfold move_assign.
  rewrite (snoc_assoc pre), get_middle by (by rewrite length_snoc).
  rewrite <- snoc_assoc, get_middle by done. cbn [res_bind].
  destruct (Nat.eqb_spec (length pre) (S (length pre))); [lia|].
  rewrite (snoc_assoc pre), insert_middle by (by rewrite length_snoc).
  by rewrite <- snoc_assoc, insert_middle.
Qed.

Lemma move_assign_up pre post (x y : T) (d s : nat) :
  s = length pre → d = S s →
  move_assign (pre ++ Live x :: Live y :: post) d s
  = Val (pre ++ Live (moved_from x) :: Live x :: post).
Proof.
  intros -> ->. unfold move_assign.
  rewrite get_middle by done.
  rewrite (snoc_assoc pre), get_middle by (by rewrite length_snoc).
  cbn [res_bind].
  destruct (Nat.eqb_spec (S (length pre)) (length pre)); [lia|].
  rewrite <- snoc_assoc, insert_middle by done.
  rewrite (snoc_assoc pre), insert_middle by (by rewrite length_snoc).
  by rewrite <- snoc_assoc.
Qed.

Lemma move_assign_self pre post (x : T) (d s : nat) :
  d = length pre → s = d →
  move_assign (pre ++ Live x :: post) d s = Val (pre ++ Live (self_moved x) :: post).
Proof.
  intros -> ->. unfold move_assign.
  rewrite !get_middle by done. cbn [res_bind].
  rewrite Nat.eqb_refl. by rewrite insert_middle.
Qed.

Lemma residue_cons (y y1 : T) ys :
  residue y (y1 :: ys) = residue (moved_from y1) ys.
Proof. unfold residue. rewrite last_cons. by destruct (last ys). Qed.

(** [std::move] of [ys] one slot toward the head, over [y]. *)
Lemma move_loop_shift ys : ∀ pre post (y : T) first d_first,
  d_first = length pre → first = S d_first →
  move_loop (length ys) (pre ++ Live y :: (Live <$> ys) ++ post) first d_first
  = Val (pre ++ (Live <$> ys) ++ Live (residue y ys) :: post).
Proof.
  induction ys as [|y1 ys IH]; intros pre post y first d_first -> ->; [done|].
  cbn [length move_loop fmap list_fmap app].
  rewrite move_assign_down by done. cbn [res_bind].
  rewrite (snoc_assoc pre), IH by (by rewrite ?length_snoc).
  by rewrite <- snoc_assoc, residue_cons.
Qed.

(** [std::move_backward] of [ys] one slot toward the tail, over [y]. *)
Lemma move_backward_loop_shift ys : ∀ pre post (y : T) last d_last,
  last = length pre + length ys → d_last = S last →
  move_backward_loop (length ys) (pre ++ (Live <$> ys) ++ Live y :: post) last d_last
  = Val (pre ++ Live (match ys with [] => y | y0 :: _ => moved_from y0 end)
           :: (Live <$> ys) ++ post).
Proof.
  induction ys as [|y1 ys IH] using rev_ind; intros pre post y last d_last -> ->;
    [done|].
  rewrite length_snoc, fmap_app. cbn [move_backward_loop fmap list_fmap].
  rewrite Nat.add_succ_r.
  rewrite <- (app_assoc (Live <$> ys)), (app_assoc pre). cbn [app].
  rewrite move_assign_up by (rewrite ?length_app, ?length_fmap; lia).
  cbn [res_bind]. rewrite <- (app_assoc pre).
  rewrite IH by done.
  rewrite <- !app_assoc. cbn [app].
  by destruct ys.
Qed.

(** The assignment loop of the copy assignment over a common prefix: it
    stops at the first element whose assignment throws. *)
Lemma assign_loop_spec xs : ∀ zs spre spost dpre dpost i,
  i = length spre → i = length dpre → length zs = length xs →
  ∃ k, k ≤ length xs ∧
    (existsb assign_throws xs = false → k = length xs) ∧
    assign_loop (length xs) (spre ++ (Live <$> xs) ++ spost)
      (dpre ++ (Live <$> zs) ++ dpost) i
    = (dpre ++ (Live <$> (take k xs ++ drop k zs)) ++ dpost,
       if existsb assign_throws xs then Exn else Val ()).
Proof.
  induction xs as [|x xs IH]; intros zs spre spost dpre dpost i -> Hd Hlen.
  - destruct zs; [|done]. by exists 0.
  - destruct zs as [|z zs]; [done|].
    cbn [length assign_loop fmap list_fmap app existsb].
    rewrite !get_middle by done.
    destruct (assign_throws x) eqn:Hx; cbn [orb].
    + exists 0. split; [lia|]. split; [done|]. done.
    + rewrite insert_middle by done.
      rewrite (snoc_assoc spre), (snoc_assoc dpre).
      destruct (IH zs (spre ++ [Live x]) spost (dpre ++ [Live x]) dpost
                  (S (length spre))) as (k & Hk & Hall & ->).
      { by rewrite length_snoc. }
      { rewrite length_snoc. lia. }
      { simpl in Hlen. lia. }
      exists (S k). split; [simpl; lia|]. split; [intros; simpl; auto|].
      by rewrite <- !snoc_assoc.
Qed.
End Shifts.

(** ** The operations on a vector that satisfies the invariant *)

Ltac len :=
  repeat (progress (rewrite ?length_app, ?length_fmap, ?length_replicate,
                      ?length_take, ?length_drop, ?left_behind_length;
                    cbn [length]));
  first [lia | f_equal; lia].

Section VecLemmas.
Context {T : Type} `{Element T}.

Implicit Types (v w : Vector T) (xs ys : list T) (src dst b : block T).

Lemma replicate_split {A} (n k : nat) (x : A) :
  k ≤ n → replicate n x = replicate k x ++ replicate (n - k) x.
Proof. intros. rewrite <- replicate_add. f_equal. lia. Qed.

Lemma replicate_S_sub {A} (c k : nat) (x : A) :
  k < c → replicate (c - k) x = x :: replicate (c - S k) x.
Proof. intros. by replace (c - k) with (S (c - S k)) by lia. Qed.

Lemma transfer_n_at src dst ys spre spost dpre dmid dpost first d_first n :
  src = spre ++ (Live <$> ys) ++ spost → dst = dpre ++ dmid ++ dpost →
  first = length spre → d_first = length dpre → length dmid = length ys →
  n = length ys →
  transfer_n src first n dst d_first
  = if transfer_throws ys then Exn
    else Val (spre ++ (Live <$> left_behind ys) ++ spost,
              dpre ++ (Live <$> ys) ++ dpost).
Proof. intros -> ->. apply transfer_n_spec. Qed.

Lemma uninitialized_copy_n_at src dst ys spre spost dpre dmid dpost first d_first n :
  src = spre ++ (Live <$> ys) ++ spost → dst = dpre ++ dmid ++ dpost →
  first = length spre → d_first = length dpre → length dmid = length ys →
  n = length ys →
  uninitialized_copy_n src first n dst d_first
  = if existsb copy_throws ys then Exn else Val (dpre ++ (Live <$> ys) ++ dpost).
Proof. intros -> -> ? ? ? ->. by apply uninitialized_copy_n_spec. Qed.

Lemma destroy_n_at b ys pre post first n :
  b = pre ++ (Live <$> ys) ++ post → first = length pre → n = length ys →
  destroy_n b first n = Val (pre ++ replicate n Raw ++ post).
Proof. intros -> -> ->. by apply destroy_n_spec. Qed.

Lemma construct_at_at b pre post (s : slot T) (x : T) (i : nat) :
  b = pre ++ s :: post → i = length pre →
  construct_at b i x = Val (pre ++ Live x :: post).
Proof. intros ->. apply construct_at_middle. Qed.

Lemma destroy_at_at b pre post (x : T) (i : nat) :
  b = pre ++ Live x :: post → i = length pre →
  destroy_at b i = Val (pre ++ Raw :: post).
Proof. intros ->. apply destroy_at_middle. Qed.

Lemma vec_eq b ys (c n : nat) :
  b = (Live <$> ys) ++ replicate (c - length ys) Raw → n = length ys →
  mkVector (mkRaw b c) n = vec ys c.
Proof. by intros -> ->. Qed.

Lemma transfer_throws_nil : transfer_throws (T:=T) [] = false.
Proof. unfold transfer_throws. by destruct by_move. Qed.

Lemma transfer_throws_app xs ys :
  transfer_throws (xs ++ ys) = transfer_throws xs || transfer_throws ys.
Proof.
  unfold transfer_throws. rewrite existsb_app.
  by destruct by_move, (existsb _ xs).
Qed.

Lemma get_vec xs cap (i : nat) :
  get (buf (vec xs cap)) i
  = match xs !! i with Some x => Val x | None => Undef end.
Proof.
  unfold get, buf, vec; cbn [data_ Raw.GetAddress buffer_].
  destruct (xs !! i) as [x|] eqn:Hx.
  - by rewrite (lookup_app_l_Some _ _ _ (Live x))
      by (by rewrite list_lookup_fmap, Hx).
  - apply lookup_ge_None in Hx.
    rewrite lookup_app_r by (by rewrite length_fmap).
    destruct (replicate _ _ !! _) as [s|] eqn:Hs; [|done].
    by apply lookup_replicate in Hs as [-> _].
Qed.

Lemma construct_T_vec xs cap args :
  construct_T (vec xs cap) args = made xs args.
Proof.
  destruct args as [[i|x]|x|a]; try done.
  unfold construct_T, deref, made. rewrite get_vec.
  by destruct (xs !! i).
Qed.
End VecLemmas.

Ltac side :=
  first [ done | len | apply replicate_split; len
        | cbn [app]; first [done | apply replicate_split; len] ].

Ltac vsimpl :=
  unfold Raw.make, Raw.Allocate, Raw.plus, Raw.at_, begin_, end_;
  cbn [vec buf Capacity size_ data_ Raw.GetAddress Raw.Capacity buffer_ capacity_
       Raw.store Raw.Swap Nat.add].

Section Growth.
Context {T : Type} `{Element T}.

Implicit Types (v w : Vector T) (xs ys : list T) (src dst b : block T).

Lemma Reserve_vec xs cap n :
  length xs ≤ cap →
  Reserve n (vec xs cap)
  = if n <=? cap then Ok (vec xs cap) ()
    else if transfer_throws xs then Throw (vec xs cap)
    else Ok (vec xs n) ().
Proof.
  intros Hle. unfold Reserve. vsimpl.
  destruct (Nat.leb_spec n cap); [done|].
  rewrite (transfer_n_at _ _ xs [] (replicate (cap - length xs) Raw)
             [] (replicate (length xs) Raw) (replicate (n - length xs) Raw))
    by side.
  destruct (transfer_throws xs); [done|]. cbn [try].
  rewrite (destroy_n_at _ (left_behind xs) [] (replicate (cap - length xs) Raw))
    by side.
  done.
Qed.

Lemma push_body_vec xs cap args :
  length xs ≤ cap → 0 < cap →
  push_body args (vec xs cap)
  = match made xs args with
    | Val x =>
        if length xs =? cap then
          if transfer_throws xs then Throw (vec xs cap)
          else Ok (vec (xs ++ [x]) (cap * 2)) ()
        else Ok (vec (xs ++ [x]) cap) ()
    | Exn => Throw (vec xs cap)
    | Undef => UB
    end.
Proof.
  intros Hle Hpos. unfold push_body. rewrite construct_T_vec. vsimpl.
  destruct (Nat.eqb_spec (length xs) cap) as [Heq|Hne].
  - destruct (Nat.leb_spec (length xs) (cap * 2)); [|lia]. cbn [try].
    destruct (made _ _) as [x| |]; [|done..]. cbn [try].
    rewrite (construct_at_at _ (replicate (length xs) Raw)
               (replicate (cap * 2 - S (length xs)) Raw) Raw)
      by (first [len | rewrite <- replicate_S_sub by lia; apply replicate_split; lia]).
    cbn [try].
    rewrite (transfer_n_at _ _ xs [] (replicate (cap - length xs) Raw)
               [] (replicate (length xs) Raw)
               (Live x :: replicate (cap * 2 - S (length xs)) Raw))
      by side.
    destruct (transfer_throws xs); [done|]. cbn [try].
    rewrite (destroy_n_at _ (left_behind xs) [] (replicate (cap - length xs) Raw))
      by side.
    cbn [try app]. f_equal. apply vec_eq; [|len].
    rewrite fmap_app, <- app_assoc, length_snoc. done.
  - destruct (made _ _) as [x| |]; [|done..]. cbn [try].
    rewrite (construct_at_at _ (Live <$> xs) (replicate (cap - S (length xs)) Raw) Raw)
      by (first [len | by rewrite <- replicate_S_sub by lia]).
    cbn [try]. f_equal. apply vec_eq; [|len].
    rewrite fmap_app, <- app_assoc, length_snoc. done.
Qed.

Lemma reserve_first_vec xs cap :
  length xs ≤ cap →
  reserve_first (vec xs cap) = Ok (vec xs (Nat.max cap 1)) ().
Proof.
  intros Hle. unfold reserve_first. vsimpl.
  destruct (Nat.eqb_spec cap 0) as [->|Hne].
  - destruct xs; [|simpl in Hle; lia].
    rewrite Reserve_vec by done. cbn. by rewrite transfer_throws_nil.
  - by replace (Nat.max cap 1) with cap by lia.
Qed.

(** Both [PushBack]s and [EmplaceBack] up to the returned reference. *)
Lemma push_vec xs cap args :
  length xs ≤ cap →
  then_ (reserve_first (vec xs cap)) (λ v _, push_body args v)
  = match made xs args with
    | Val x =>
        if (length xs =? cap) && (0 <? cap) && transfer_throws xs
        then Throw (vec xs cap)
        else Ok (vec (xs ++ [x]) (grown (length xs) cap)) ()
    | Exn => Throw (vec xs (Nat.max cap 1))
    | Undef => UB
    end.
Proof.
  intros Hle. rewrite reserve_first_vec by done. cbn [then_].
  rewrite push_body_vec by lia. unfold grown.
  destruct (made _ _) as [x| |]; [|done..].
  destruct (Nat.eqb_spec cap 0) as [->|Hne].
  - destruct xs; [|simpl in Hle; lia]. done.
  - replace (Nat.max cap 1) with cap by lia.
    destruct (Nat.ltb_spec 0 cap); [|lia].
    by destruct (length xs =? cap), (transfer_throws xs).
Qed.

Lemma PushBack_vec xs cap value :
  length xs ≤ cap →
  PushBack value (vec xs cap)
  = match made xs (Lvalue value) with
    | Val x =>
        if (length xs =? cap) && (0 <? cap) && transfer_throws xs
        then Throw (vec xs cap)
        else Ok (vec (xs ++ [x]) (grown (length xs) cap)) ()
    | Exn => Throw (vec xs (Nat.max cap 1))
    | Undef => UB
    end.
Proof. apply push_vec. Qed.

Lemma PushBack_move_vec xs cap x :
  length xs ≤ cap →
  PushBack_move x (vec xs cap)
  = if (length xs =? cap) && (0 <? cap) && transfer_throws xs
    then Throw (vec xs cap)
    else Ok (vec (xs ++ [x]) (grown (length xs) cap)) ().
Proof. intros. unfold PushBack_move. by rewrite push_vec. Qed.

Lemma grown_gt size cap : size ≤ cap → size < grown size cap.
Proof.
  unfold grown. intros.
  destruct (Nat.eqb_spec cap 0); [lia|].
  destruct (Nat.eqb_spec size cap); lia.
Qed.

Lemma EmplaceBack_vec xs cap args :
  length xs ≤ cap →
  EmplaceBack args (vec xs cap)
  = match made xs args with
    | Val x =>
        if (length xs =? cap) && (0 <? cap) && transfer_throws xs
        then Throw (vec xs cap)
        else Ok (vec (xs ++ [x]) (grown (length xs) cap)) (length xs)
    | Exn => Throw (vec xs (Nat.max cap 1))
    | Undef => UB
    end.
Proof.
  intros Hle. unfold EmplaceBack.
  rewrite reserve_first_vec by done. cbn [then_].
  rewrite push_body_vec by lia. unfold grown.
  destruct (made _ _) as [x| |]; [|done..].
  assert (∀ c, length xs < c →
    then_ (Ok (vec (xs ++ [x]) c) ())
      (λ v (_ : ()), r ←[v] Raw.at_ (data_ v) (size_ v - 1); Ok v r)
    = Ok (vec (xs ++ [x]) c) (length xs)) as Hret.
  { intros c Hc. cbn [then_]. vsimpl.
    rewrite length_snoc, Nat.sub_succ, Nat.sub_0_r.
    by destruct (Nat.ltb_spec (length xs) c); [|lia]. }
  destruct (Nat.eqb_spec cap 0) as [->|Hne].
  - destruct xs; [|simpl in Hle; lia]. done.
  - replace (Nat.max cap 1) with cap by lia.
    destruct (Nat.ltb_spec 0 cap); [|lia].
    destruct (Nat.eqb_spec (length xs) cap), (transfer_throws xs);
      cbn [andb]; try done; apply Hret; lia.
Qed.
End Growth.

Section Positions.
Context {T : Type} `{Element T}.

Implicit Types (v w : Vector T) (xs ys : list T) (src dst b : block T).

Lemma PopBack_vec xs (x : T) cap :
  length xs < cap →
  PopBack (vec (xs ++ [x]) cap) = Ok (vec xs cap) ().
Proof.
  intros Hlt. unfold PopBack. vsimpl.
  rewrite length_snoc, Nat.sub_succ, Nat.sub_0_r. cbn [Nat.eqb].
  destruct (Nat.ltb_spec (length xs) cap); [|lia]. cbn [try].
  rewrite (destroy_at_at _ (Live <$> xs) (replicate (cap - S (length xs)) Raw) x)
    by (first [len | by rewrite fmap_app, <- app_assoc]).
  cbn [try]. f_equal. apply vec_eq; [|done].
  by rewrite <- replicate_S_sub.
Qed.

Lemma std_move_at b ys pre post (y : T) first last d_first :
  b = pre ++ Live y :: (Live <$> ys) ++ post →
  d_first = length pre → first = S d_first → last = first + length ys →
  std_move b first last d_first
  = Val (pre ++ (Live <$> ys) ++ Live (residue y ys) :: post).
Proof.
  intros -> -> -> ->. unfold std_move.
  destruct (Nat.ltb_spec (S (length pre) + length ys) (S (length pre))); [lia|].
  replace (S (length pre) + length ys - S (length pre)) with (length ys) by lia.
  by apply move_loop_shift.
Qed.

Lemma Erase_vec xs cap pos :
  length xs ≤ cap → pos < length xs →
  Erase pos (vec xs cap) = Ok (vec (take pos xs ++ drop (S pos) xs) cap) pos.
Proof.
  intros Hle Hpos. unfold Erase. vsimpl.
  destruct (Nat.ltb_spec pos (length xs)); [|lia]. cbn [negb andb Nat.leb].
  destruct (lookup_lt_is_Some_2 xs pos Hpos) as [y Hy].
  pose proof (take_drop_middle xs pos y Hy) as Hxs.
  assert (length (take pos xs) = pos) as Htake by (rewrite length_take; lia).
  assert (length (drop (S pos) xs) = length xs - S pos) as Hdrop
    by (by rewrite length_drop).
  rewrite (std_move_at _ (drop (S pos) xs) (Live <$> take pos xs)
             (replicate (cap - length xs) Raw) y).
  2:{ rewrite <- Hxs at 1. by rewrite fmap_app, <- app_assoc, fmap_cons. }
  2-4: len.
  cbn [try].
  rewrite (destroy_at_at _ ((Live <$> take pos xs) ++ (Live <$> drop (S pos) xs))
             (replicate (cap - length xs) Raw) (residue y (drop (S pos) xs)))
    by (first [len | by rewrite <- app_assoc]).
  cbn [try]. destruct (Nat.ltb_spec pos cap); [|lia]. cbn [try].
  f_equal. apply vec_eq; [|len].
  rewrite fmap_app. f_equal.
  replace (length (take pos xs ++ drop (S pos) xs)) with (length xs - 1) by len.
  rewrite (replicate_S_sub cap (length xs - 1)) by lia. do 2 f_equal. lia.
Qed.

(** [Emplace] when the block is full: the new block holds the old prefix,
    the new element and the old suffix. *)
Lemma Emplace_full xs pos args :
  pos ≤ length xs →
  Emplace pos args (vec xs (length xs))
  = match made xs args with
    | Val x =>
        if transfer_throws xs then Throw (vec xs (length xs))
        else Ok (vec (take pos xs ++ x :: drop pos xs)
                   (if length xs =? 0 then 1 else length xs * 2)) pos
    | Exn => Throw (vec xs (length xs))
    | Undef => UB
    end.
Proof.
  intros Hpos. unfold Emplace. rewrite construct_T_vec. vsimpl.
  rewrite Nat.eqb_refl, Nat.sub_diag. cbn [replicate].
  set (cap := if length xs =? 0 then 1 else length xs * 2).
  assert (length xs < cap) as Hcap
    by (unfold cap; destruct (Nat.eqb_spec (length xs) 0); lia).
  destruct (Nat.leb_spec pos cap); [|lia]. cbn [try].
  destruct (made _ _) as [x| |]; [|done..]. cbn [try].
  assert (transfer_throws xs
          = transfer_throws (take pos xs) || transfer_throws (drop pos xs)) as ->
    by (by rewrite <- transfer_throws_app, take_drop).
  assert (length (take pos xs) = pos) as Htake by (rewrite length_take; lia).
  assert (length (drop pos xs) = length xs - pos) as Hdrop by (by rewrite length_drop).
  rewrite (construct_at_at _ (replicate pos Raw) (replicate (cap - S pos) Raw) Raw)
    by (first [len | rewrite <- replicate_S_sub by lia; apply replicate_split; lia]).
  cbn [try].
  rewrite (transfer_n_at _ _ (take pos xs) [] ((Live <$> drop pos xs) ++ [])
             [] (replicate pos Raw) (Live x :: replicate (cap - S pos) Raw)).
  2:{ cbn [app]. by rewrite app_assoc, <- fmap_app, take_drop. }
  2-6: side.
  destruct (transfer_throws (take pos xs)); [done|]. cbn [try orb app].
  rewrite (transfer_n_at _ _ (drop pos xs) (Live <$> left_behind (take pos xs)) []
             ((Live <$> take pos xs) ++ [Live x]) (replicate (length xs - pos) Raw)
             (replicate (cap - S (length xs)) Raw)).
  2: done.
  2:{ rewrite <- app_assoc. cbn [app]. do 2 f_equal.
      rewrite <- replicate_add. f_equal. lia. }
  2-5: len.
  destruct (transfer_throws (drop pos xs)); [done|]. cbn [try].
  rewrite (destroy_n_at _ (left_behind (take pos xs) ++ left_behind (drop pos xs)) [] []).
  2:{ by rewrite fmap_app, <- app_assoc. }
  2-3: len.
  cbn [try]. destruct (Nat.ltb_spec pos cap); [|lia]. cbn [try].
  f_equal. apply vec_eq; [|len].
  rewrite fmap_app, <- !app_assoc. cbn [app fmap list_fmap]. do 3 f_equal. len.
Qed.
End Positions.

Section InPlace.
Context {T : Type} `{Element T}.

Implicit Types (v w : Vector T) (xs ys : list T) (src dst b : block T).

Lemma move_backward_at b ys pre post (y : T) first last d_last :
  b = pre ++ (Live <$> ys) ++ Live y :: post →
  first = length pre → last = first + length ys → d_last = S last →
  move_backward b first last d_last
  = Val (pre ++ Live (match ys with [] => y | y0 :: _ => moved_from y0 end)
           :: (Live <$> ys) ++ post).
Proof.
  intros -> -> -> ->. unfold move_backward.
  destruct (Nat.ltb_spec (length pre + length ys) (length pre)); [lia|].
  replace (length pre + length ys - length pre) with (length ys) by lia.
  by apply move_backward_loop_shift.
Qed.

(** The first [std::move_backward] of the in-place path: source and
    destination are the same one slot, the last element. *)
Lemma move_backward_last b pre post (y : T) size :
  b = pre ++ Live y :: post → size = S (length pre) →
  move_backward b (size - 1) size size = Val (pre ++ Live (self_moved y) :: post).
Proof.
  intros -> ->. unfold move_backward.
  rewrite Nat.sub_succ, Nat.sub_0_r.
  destruct (Nat.ltb_spec (S (length pre)) (length pre)); [lia|].
  replace (S (length pre) - length pre) with 1 by lia.
  cbn [move_backward_loop]. by rewrite move_assign_self.
Qed.

(** [Emplace] before an element when the block has room: the elements
    from [pos] up to the last but one move one slot toward the tail, the
    last one is overwritten, and slot [size] is left as it was. *)
Lemma Emplace_spare xs (l : T) cap pos args :
  S (length xs) < cap → pos ≤ length xs →
  Emplace pos args (vec (xs ++ [l]) cap)
  = match made (xs ++ [l]) args with
    | Val x =>
        Ok (mkVector (data_ (vec (take pos xs ++ x :: drop pos xs) cap))
              (S (S (length xs)))) pos
    | Exn => Throw (vec (xs ++ [l]) cap)
    | Undef => UB
    end.
Proof.
  intros Hcap Hpos. unfold Emplace. rewrite construct_T_vec. vsimpl.
  rewrite length_snoc.
  destruct (Nat.eqb_spec (S (length xs)) cap); [lia|].
  destruct (made _ _) as [x| |]; [|done..]. cbn [try Nat.eqb].
  rewrite (move_backward_last _ (Live <$> xs) (replicate (cap - S (length xs)) Raw) l)
    by (first [len | by rewrite fmap_app, <- app_assoc]).
  cbn [try]. rewrite Nat.sub_succ, Nat.sub_0_r.
  assert (length (take pos xs) = pos) as Htake by (rewrite length_take; lia).
  rewrite (move_backward_at _ (drop pos xs) (Live <$> take pos xs)
             (replicate (cap - S (length xs)) Raw) (self_moved l)).
  2:{ by rewrite app_assoc, <- fmap_app, take_drop. }
  2-4: len.
  cbn [try].
  rewrite (construct_at_at _ (Live <$> take pos xs)
             ((Live <$> drop pos xs) ++ replicate (cap - S (length xs)) Raw)
             (Live (match drop pos xs with
                    | [] => self_moved l
                    | y0 :: _ => moved_from y0
                    end)))
    by (first [done | len]).
  cbn [try]. unfold Raw.store. vsimpl. do 3 f_equal.
  rewrite fmap_app, <- app_assoc. cbn [fmap list_fmap app]. do 3 f_equal. len.
Qed.

(** [Emplace] at [end()] when the block has room: the second
    [std::move_backward] is given the range from [end()] to [end() - 1]. *)
Lemma Emplace_spare_end xs cap args :
  0 < length xs → length xs < cap →
  Emplace (length xs) args (vec xs cap)
  = match made xs args with
    | Val _ | Undef => UB
    | Exn => Throw (vec xs cap)
    end.
Proof.
  intros Hpos Hcap. unfold Emplace. rewrite construct_T_vec. vsimpl.
  destruct (Nat.eqb_spec (length xs) cap); [lia|].
  destruct (made _ _) as [x| |]; [|done..]. cbn [try].
  destruct (Nat.eqb_spec (length xs) 0); [lia|].
  destruct xs as [|l xs _] using rev_ind; [simpl in Hpos; lia|].
  rewrite (move_backward_last _ (Live <$> xs) (replicate (cap - length (xs ++ [l])) Raw) l)
    by (first [len | by rewrite fmap_app, <- app_assoc]).
  cbn [try]. unfold move_backward.
  by destruct (Nat.ltb_spec (length (xs ++ [l]) - 1) (length (xs ++ [l]))); [|lia].
Qed.

(** [Emplace] into an empty vector with room: the first
    [std::move_backward] starts before the block. *)
Lemma Emplace_spare_empty cap pos args :
  0 < cap →
  Emplace pos args (vec [] cap)
  = match made [] args with
    | Val _ | Undef => UB
    | Exn => Throw (vec [] cap)
    end.
Proof.
  intros Hcap. unfold Emplace. rewrite construct_T_vec. vsimpl. cbn [length].
  destruct (Nat.eqb_spec 0 cap); [lia|].
  by destruct (made _ _).
Qed.

Lemma Emplace_made xs cap pos args args' :
  made xs args = made xs args' →
  Emplace pos args (vec xs cap) = Emplace pos args' (vec xs cap).
Proof. intros Heq. unfold Emplace. by rewrite !construct_T_vec, Heq. Qed.

(** [Insert] of a [const T&], into own storage or not, is [Emplace] of
    that reference. *)
Lemma Insert_vec xs cap pos value :
  length xs ≤ cap → pos ≤ length xs →
  Insert pos value (vec xs cap) = Emplace pos (Lvalue value) (vec xs cap).
Proof.
  intros Hle Hpos. unfold Insert, aliases. vsimpl.
  destruct (Nat.eqb_spec (length xs) 0) as [|Hne]; [done|]. cbn [negb].
  destruct (Nat.ltb_spec 0 cap); [|lia].
  destruct (Nat.ltb_spec (length xs - 1) cap); [|lia]. cbn [res_bind].
  destruct value as [i|x]; cbn [try]; [|done].
  destruct (Nat.leb_spec i (length xs - 1)) as [Hi|Hi]; cbn [andb Nat.leb]; [|done].
  unfold deref. rewrite get_vec.
  destruct (xs !! i) as [x|] eqn:Hx.
  2:{ apply lookup_ge_None in Hx. lia. }
  cbn [try]. unfold copy_construct.
  destruct (copy_throws x) eqn:Hthrow; cbn [try].
  - unfold Emplace. rewrite construct_T_vec. cbn [made]. rewrite Hx.
    unfold copy_construct. rewrite Hthrow. vsimpl.
    destruct (Nat.eqb_spec (length xs) cap); [|done].
    by destruct (Nat.leb_spec pos (if length xs =? 0 then 1 else cap * 2));
      [|destruct (Nat.eqb_spec (length xs) 0); lia].
  - apply Emplace_made. cbn [made]. rewrite Hx.
    unfold copy_construct. by rewrite Hthrow.
Qed.
End InPlace.

Section Sizes.
Context {T : Type} `{Element T}.

Implicit Types (v w : Vector T) (xs ys : list T) (src dst b : block T).

Lemma uninitialized_value_construct_n_at b pre mid post first n :
  b = pre ++ mid ++ post → first = length pre → n = length mid →
  uninitialized_value_construct_n b first n
  = match value_init with
    | Some x => Val (pre ++ replicate n (Live x) ++ post)
    | None => if n =? 0 then Val b else Exn
    end.
Proof. intros -> -> ->. by apply uninitialized_value_construct_n_spec. Qed.

Lemma Resize_vec xs cap n :
  length xs ≤ cap →
  Resize n (vec xs cap)
  = if length xs <? n then
      if (cap <? n) && transfer_throws xs then Throw (vec xs cap)
      else match value_init with
           | Some d => Ok (vec (xs ++ replicate (n - length xs) d) (Nat.max cap n)) ()
           | None => Throw (vec xs (Nat.max cap n))
           end
    else Ok (vec (take n xs) cap) ().
Proof.
  intros Hle. unfold Resize. vsimpl.
  destruct (Nat.ltb_spec (length xs) n) as [Hgrow|Hkeep].
  - assert ((if cap <? n then Reserve n (vec xs cap) else Ok (vec xs cap) ())
            = if (cap <? n) && transfer_throws xs then Throw (vec xs cap)
              else Ok (vec xs (Nat.max cap n)) ()) as ->.
    { destruct (Nat.ltb_spec cap n); cbn [andb].
      - rewrite Reserve_vec by done.
        destruct (Nat.leb_spec n cap); [lia|].
        by replace (Nat.max cap n) with n by lia.
      - by replace (Nat.max cap n) with cap by lia. }
    destruct (_ && _); [done|]. cbn [then_]. vsimpl.
    rewrite (uninitialized_value_construct_n_at _ (Live <$> xs)
               (replicate (n - length xs) Raw) (replicate (Nat.max cap n - n) Raw))
      by (first [len | f_equal; rewrite <- replicate_add; f_equal; lia]).
    destruct value_init as [d|].
    + cbn [try]. f_equal. apply vec_eq; [|len].
      rewrite fmap_app, fmap_replicate, <- app_assoc. do 3 f_equal. len.
    + by destruct (Nat.eqb_spec (n - length xs) 0); [lia|].
  - destruct (Nat.ltb_spec n (length xs)) as [Hshrink|Hsame].
    + rewrite (destroy_n_at _ (drop n xs) (Live <$> take n xs)
                 (replicate (cap - length xs) Raw)).
      2:{ by rewrite app_assoc, <- fmap_app, take_drop. }
      2-3: len.
      cbn [try]. f_equal. apply vec_eq; [|len].
      f_equal. rewrite <- replicate_add. len.
    + by rewrite take_ge by lia.
Qed.

Lemma Vector_sized_eq n :
  Vector_sized (T:=T) n
  = match value_init with
    | Some d => Val (vec (replicate n d) n)
    | None => if n =? 0 then Val (vec [] 0) else Exn
    end.
Proof.
  unfold Vector_sized. vsimpl.
  rewrite (uninitialized_value_construct_n_at _ [] (replicate n Raw) [])
    by (first [len | by rewrite app_nil_r]).
  destruct value_init as [d|].
  - cbn [res_bind app]. f_equal. unfold Raw.store; cbn [capacity_].
    apply vec_eq; [|len].
    rewrite fmap_replicate, length_replicate, Nat.sub_diag. done.
  - by destruct n.
Qed.

Lemma Vector_copy_vec xs cap :
  Vector_copy (vec xs cap)
  = if existsb copy_throws xs then Exn else Val (vec xs (length xs)).
Proof.
  unfold Vector_copy. vsimpl.
  rewrite (uninitialized_copy_n_at _ _ xs [] (replicate (cap - length xs) Raw)
             [] (replicate (length xs) Raw) [])
    by (first [done | len | by rewrite app_nil_r]).
  destruct (existsb _ _); [done|]. cbn [res_bind app].
  f_equal. unfold Raw.store; cbn [capacity_].
  apply vec_eq; [|done]. by rewrite Nat.sub_diag.
Qed.

Lemma Vector_move_vec xs cap :
  Vector_move (vec xs cap) = (vec xs cap, vec [] 0).
Proof. done. Qed.

Lemma Swap_with_eq v w : Swap_with v w = (w, v).
Proof. by destruct v as [[??]?], w as [[??]?]. Qed.

Lemma move_assign_vec_eq v w : move_assign_vec v (Other w) = (w, Other v).
Proof. by destruct v as [[??]?], w as [[??]?]. Qed.

Lemma Swap_eq v w : Swap v (Other w) = (w, Other v).
Proof. unfold Swap. by rewrite Swap_with_eq. Qed.

Lemma Vector_destroy_vec xs cap :
  Vector_destroy (vec xs cap) = Val (replicate (length xs) Raw ++ replicate (cap - length xs) Raw).
Proof.
  unfold Vector_destroy. vsimpl.
  by rewrite (destroy_n_at _ xs [] (replicate (cap - length xs) Raw)).
Qed.

Lemma assign_loop_at src dst xs zs spost dpost n :
  src = (Live <$> xs) ++ spost → dst = (Live <$> zs) ++ dpost →
  length zs = length xs → n = length xs →
  ∃ k, k ≤ length xs ∧
    (existsb assign_throws xs = false → k = length xs) ∧
    assign_loop n src dst 0
    = ((Live <$> (take k xs ++ drop k zs)) ++ dpost,
       if existsb assign_throws xs then Exn else Val ()).
Proof.
  intros -> -> Hlen ->.
  by apply (assign_loop_spec xs zs [] spost [] dpost 0).
Qed.

Lemma set_buf_vec xs zs cap dpost :
  length zs = length xs → dpost = replicate (cap - length xs) Raw →
  set_buf (vec xs cap) ((Live <$> zs) ++ dpost) = vec zs cap.
Proof. intros Hlen ->. unfold set_buf. vsimpl. apply vec_eq; by rewrite Hlen. Qed.

(** Copy assignment from another vector. *)
Lemma copy_assign_vec xs cap ys capw :
  length xs ≤ cap → length ys ≤ capw →
  ∃ zs, length zs = length xs ∧ (cap < length ys → zs = xs) ∧
    copy_assign (vec xs cap) (Other (vec ys capw))
    = if assignment_throws xs cap ys then Throw (vec zs cap)
      else Ok (vec ys (if cap <? length ys then length ys else cap)) ().
Proof.
  intros Hle Hlew. unfold copy_assign, assignment_throws. vsimpl.
  destruct (Nat.ltb_spec cap (length ys)) as [Hbig|Hfits].
  { exists xs. split; [done|]. split; [done|].
    rewrite Vector_copy_vec. destruct (existsb _ _); [done|]. cbn [try].
    rewrite Swap_with_eq, Vector_destroy_vec. done. }
  destruct (Nat.ltb_spec (length ys) (length xs)) as [Hshrink|Hgrow].
  - rewrite take_ge, drop_ge by lia. cbn [existsb]. rewrite orb_false_r.
    destruct (assign_loop_at ((Live <$> ys) ++ replicate (capw - length ys) Raw)
                ((Live <$> xs) ++ replicate (cap - length xs) Raw)
                ys (take (length ys) xs) (replicate (capw - length ys) Raw)
                ((Live <$> drop (length ys) xs) ++ replicate (cap - length xs) Raw)
                (length ys))
      as (k & Hk & Hall & ->); [done| |len|done|].
    { by rewrite app_assoc, <- fmap_app, take_drop. }
    exists ((take k ys ++ drop k (take (length ys) xs)) ++ drop (length ys) xs).
    split; [len|]. split; [lia|].
    destruct (existsb assign_throws ys).
    + f_equal. rewrite app_assoc, <- fmap_app. apply set_buf_vec; [len|done].
    + rewrite Hall, take_ge, drop_ge by (first [done | len]).
      rewrite app_nil_r.
      rewrite (destroy_n_at _ (drop (length ys) xs) (Live <$> ys)
                 (replicate (cap - length xs) Raw)) by (first [done | len]).
      cbn [try]. f_equal. apply vec_eq; [|done].
      f_equal. rewrite <- replicate_add. len.
  - destruct (assign_loop_at ((Live <$> ys) ++ replicate (capw - length ys) Raw)
                ((Live <$> xs) ++ replicate (cap - length xs) Raw)
                (take (length xs) ys) xs
                ((Live <$> drop (length xs) ys) ++ replicate (capw - length ys) Raw)
                (replicate (cap - length xs) Raw)
                (length xs))
      as (k & Hk & Hall & ->); [|done|len|len|].
    { by rewrite app_assoc, <- fmap_app, take_drop. }
    destruct (existsb assign_throws (take (length xs) ys)); cbn [orb].
    + exists (take k (take (length xs) ys) ++ drop k xs).
      split; [len|]. split; [lia|].
      f_equal. apply set_buf_vec; [len|done].
    + rewrite Hall, take_ge, drop_ge by (first [done | len]).
      rewrite app_nil_r.
      exists (take (length xs) ys). split; [len|]. split; [lia|].
      rewrite (uninitialized_copy_n_at _ _ (drop (length xs) ys)
                 (Live <$> take (length xs) ys) (replicate (capw - length ys) Raw)
                 (Live <$> take (length xs) ys)
                 (replicate (length ys - length xs) Raw)
                 (replicate (cap - length ys) Raw)).
      2:{ by rewrite app_assoc, <- fmap_app, take_drop. }
      2:{ f_equal. rewrite <- replicate_add. len. }
      2-5: len.
      destruct (existsb copy_throws _); cbn [try].
      * f_equal. apply set_buf_vec; [len|done].
      * f_equal. apply vec_eq; [|done].
        by rewrite app_assoc, <- fmap_app, take_drop.
Qed.
End Sizes.

(** ** The invariant as a boolean and as a representation *)

Section InvariantLemmas.
Context {T : Type} `{Element T}.

Implicit Types (v w : Vector T) (xs ys : list T) (b : block T).

Lemma all_live b : forallb is_live b = true → ∃ xs, b = Live <$> xs.
Proof.
  induction b as [|[|x] b IH]; cbn; intros Hb; [by exists []|done|].
  destruct (IH Hb) as [xs ->]. by exists (x :: xs).
Qed.

Lemma all_raw b : forallb is_raw b = true → b = replicate (length b) Raw.
Proof.
  induction b as [|[|x] b IH]; cbn; intros Hb; [done| |done].
  by rewrite <- IH.
Qed.

Lemma live_all xs : forallb is_live (Live <$> xs) = true.
Proof. by induction xs. Qed.

Lemma raw_all n : forallb (is_raw (T:=T)) (replicate n Raw) = true.
Proof. by induction n. Qed.

Lemma invariant_vec xs cap : length xs ≤ cap → invariant (vec xs cap) = true.
Proof.
  intros Hle. unfold invariant. vsimpl.
  rewrite take_app_length', drop_app_length' by len.
  rewrite live_all, raw_all.
  destruct (Nat.leb_spec (length xs) cap); [|lia].
  by destruct (Nat.eqb_spec (length ((Live <$> xs) ++ replicate (cap - length xs) Raw)) cap);
    [|exfalso; revert n; len].
Qed.

Lemma invariant_holds v : invariant v = true ↔ ∃ xs, holds v xs.
Proof.
  split.
  - unfold invariant, holds. destruct v as [[b cap] size]. vsimpl.
    rewrite !andb_true_iff, Nat.leb_le, Nat.eqb_eq.
    intros [[[Hsize Hlen] Hlive] Hraw].
    destruct (all_live _ Hlive) as [xs Hxs].
    apply all_raw in Hraw. rewrite length_drop in Hraw.
    assert (length xs = size) as Hxs_len.
    { rewrite <- (length_fmap Live), <- Hxs, length_take. lia. }
    exists xs. split; [lia|].
    apply vec_eq; [|done].
    by rewrite <- (take_drop size b), Hxs, Hraw, Hxs_len, Hlen at 1.
  - intros [xs [Hle ->]]. by apply invariant_vec.
Qed.

Lemma holds_vec xs cap : length xs ≤ cap → holds (vec xs cap) xs.
Proof. by split. Qed.

Lemma holds_size v xs : holds v xs → Size v = length xs.
Proof. by intros [_ ->]. Qed.

Lemma holds_contents v xs : holds v xs → contents v = Live <$> xs.
Proof.
  intros [_ ->]. unfold contents. vsimpl. by rewrite take_app_length' by len.
Qed.

Lemma fmap_Live_inj xs : ∀ ys, Live <$> xs = Live <$> ys → xs = ys.
Proof.
  induction xs as [|x xs IH]; intros [|y ys] [=]; [done|].
  f_equal; auto.
Qed.

Lemma holds_inj v xs ys : holds v xs → holds v ys → xs = ys.
Proof.
  intros Hx Hy. apply holds_contents in Hx, Hy. rewrite Hx in Hy.
  by apply fmap_Live_inj.
Qed.
End InvariantLemmas.

(** From [holds v xs] to [v = vec xs cap]. *)
Ltac as_vec Hv cap :=
  let Hle := fresh "Hle" in
  let Hcap := fresh "Hcap" in
  destruct Hv as [Hle Hv];
  remember (Capacity _) as cap eqn:Hcap in Hle, Hv |- *;
  clear Hcap; subst.

(** ** Every operation but the insertion inside the block keeps the invariant *)

Section Preservation.
Context {T : Type} `{Element T}.

Implicit Types (v w : Vector T) (xs ys : list T) (src dst b : block T).

Lemma get_Val b i (x : T) : get b i = Val x → i < length b.
Proof.
  unfold get. destruct (b !! i) as [s|] eqn:Hs; [|done].
  intros _. by apply lookup_lt_Some in Hs.
Qed.

Lemma uninitialized_copy_n_Val n : ∀ src first dst d_first r,
  uninitialized_copy_n src first n dst d_first = Val r → n = 0 ∨ first + n ≤ length src.
Proof.
  induction n as [|n IH]; intros src first dst d_first r; [by left|].
  cbn [uninitialized_copy_n]. right.
  destruct (get src first) as [x| |] eqn:Hx; [|done..]. apply get_Val in Hx.
  cbn [res_bind] in *.
  destruct (copy_construct x) as [y| |]; [|done..]. cbn [res_bind] in *.
  destruct (construct_at dst d_first y) as [dst'| |]; [|done..]. cbn [res_bind] in *.
  destruct (IH _ _ _ _ _ H0); lia.
Qed.

Lemma uninitialized_move_n_Val n : ∀ src first dst d_first r,
  uninitialized_move_n src first n dst d_first = Val r → n = 0 ∨ first + n ≤ length src.
Proof.
  induction n as [|n IH]; intros src first dst d_first r; [by left|].
  cbn [uninitialized_move_n]. right.
  destruct (get src first) as [x| |] eqn:Hx; [|done..]. apply get_Val in Hx.
  cbn [res_bind] in *.
  destruct (construct_at dst d_first x) as [dst'| |]; [|done..]. cbn [res_bind] in *.
  destruct (IH _ _ _ _ _ H0) as [?|Hlen]; [lia|].
  rewrite length_insert in Hlen. lia.
Qed.

Lemma transfer_n_Val src first n dst d_first r :
  transfer_n src first n dst d_first = Val r → n = 0 ∨ first + n ≤ length src.
Proof.
  unfold transfer_n. destruct (_ || _).
  - apply uninitialized_move_n_Val.
  - destruct (uninitialized_copy_n _ _ _ _ _) eqn:Hcopy; [|done..].
    intros _. by eapply uninitialized_copy_n_Val.
Qed.

(** An exception leaves [Emplace] with the vector as it was. *)
Lemma Emplace_Throw v pos args v' : Emplace pos args v = Throw v' → v' = v.
Proof.
  unfold Emplace.
  repeat first
    [ progress cbn beta iota delta [try]
    | match goal with
      | |- try _ (Raw.at_ ?m ?i) _ = _ → _ =>
          unfold Raw.at_; destruct (i <? capacity_ m)
      | |- try _ ?r _ = _ → _ => destruct r as [?| |]
      | |- (let '(_, _) := ?p in _) = _ → _ => destruct p
      | |- (if ?c then _ else _) = _ → _ => destruct c
      end ];
    congruence.
Qed.

Lemma Emplace_full_kept xs pos args :
  kept (Emplace pos args (vec xs (length xs))).
Proof.
  destruct (decide (pos ≤ length xs)) as [Hpos|Hpos].
  - rewrite Emplace_full by done.
    destruct (made _ _) as [x| |]; [|by apply invariant_vec|done].
    destruct (transfer_throws xs); [by apply invariant_vec|].
    apply invariant_vec.
    destruct (Nat.eqb_spec (length xs) 0); len.
  - destruct (Emplace _ _ _) as [s r|s|] eqn:He; [|by apply Emplace_Throw in He as ->; apply invariant_vec|done].
    exfalso. revert He. unfold Emplace. vsimpl. rewrite Nat.eqb_refl.
    destruct (_ <=? _); [|done]. cbn [try].
    destruct (construct_T _ _) as [x| |]; [|done..]. cbn [try].
    destruct (construct_at _ _ _) as [nb| |]; [|done..]. cbn [try].
    destruct (transfer_n _ _ _ _ _) as [[old nb']| |] eqn:Ht; [|done..].
    apply transfer_n_Val in Ht. revert Ht. len.
Qed.

Lemma Insert_cases v pos value :
  (∃ args, Insert pos value v = Emplace pos args v) ∨
  Insert pos value v = Throw v ∨ Insert pos value v = UB.
Proof.
  unfold Insert. destruct (negb _); [|eauto].
  destruct (aliases v value) as [[|]| |]; cbn [try]; [|eauto..].
  destruct (deref v value) as [x| |]; cbn [try]; [|eauto..].
  destruct (copy_construct x) as [y| |]; cbn [try]; eauto.
Qed.

Lemma kept_forget {A} (o : outcome (Vector T) A) : kept o → kept (forget o).
Proof. by destruct o. Qed.

Lemma step_kept o v :
  invariant v = true → shifts_in_place o v = false → operand_ok o = true →
  kept (step o v).
Proof.
  intros Hv Hshift Hother. apply invariant_holds in Hv as [xs Hv]. as_vec Hv cap.
  assert (∀ a, kept (then_ (reserve_first (vec xs cap)) (λ v _, push_body a v))) as Hpush.
  { intros a. rewrite push_vec by done.
    pose proof (grown_gt (length xs) cap Hle).
    destruct (made _ _) as [x| |]; [|apply invariant_vec; lia|done].
    destruct (_ && _); apply invariant_vec; [done|len]. }
  assert (∀ pos args, shifts_in_place (OpEmplace pos args) (vec xs cap) = false →
                      kept (Emplace pos args (vec xs cap))) as Hemplace.
  { intros pos args. cbn [shifts_in_place]. vsimpl.
    destruct (Nat.eqb_spec (length xs) cap) as [<-|]; [|done].
    intros _. apply Emplace_full_kept. }
  destruct o as [value|value|args| |pos value|pos value|pos args|pos|n|n|[|w]|[|w]|[|w]];
    cbn [step].
  - apply Hpush.
  - apply Hpush.
  - apply kept_forget. rewrite EmplaceBack_vec by done.
    pose proof (grown_gt (length xs) cap Hle).
    destruct (made _ _) as [x| |]; [|apply invariant_vec; lia|done].
    destruct (_ && _); apply invariant_vec; [done|len].
  - destruct xs as [|x xs _] using rev_ind; [done|].
    rewrite length_app in Hle. cbn [length] in Hle.
    rewrite PopBack_vec by lia. apply invariant_vec. lia.
  - apply kept_forget.
    destruct (Insert_cases (vec xs cap) pos value) as [[args ->]|[->| ->]];
      [by apply Hemplace|by apply invariant_vec|done].
  - apply kept_forget. by apply Hemplace.
  - apply kept_forget. by apply Hemplace.
  - apply kept_forget.
    destruct (decide (pos < length xs)) as [Hpos|Hpos].
    + rewrite Erase_vec by done. apply invariant_vec. len.
    + unfold Erase. vsimpl.
      by destruct (Nat.ltb_spec pos (length xs)); [lia|].
  - rewrite Reserve_vec by done.
    destruct (Nat.leb_spec n cap); [by apply invariant_vec|].
    destruct (transfer_throws xs); apply invariant_vec; lia.
  - rewrite Resize_vec by done.
    destruct (Nat.ltb_spec (length xs) n).
    + destruct (_ && _); [by apply invariant_vec|].
      destruct value_init; apply invariant_vec; len.
    + apply invariant_vec. len.
  - by apply invariant_vec.
  - cbn [operand_ok] in Hother. apply invariant_holds in Hother as [ys Hw].
    as_vec Hw capw.
    destruct (copy_assign_vec xs cap ys capw) as (zs & Hzs & _ & ->); [done..|].
    destruct (assignment_throws _ _ _); apply invariant_vec; [lia|].
    destruct (Nat.ltb_spec cap (length ys)); lia.
  - by apply invariant_vec.
  - by rewrite move_assign_vec_eq.
  - by apply invariant_vec.
  - by rewrite Swap_eq.
Qed.

(** The insertion inside the block, before an element: the vector returned
    has an uninitialized slot at its last index. *)
Lemma Emplace_spare_not_kept xs (l : T) cap pos args x :
  S (length xs) < cap → pos ≤ length xs → made (xs ++ [l]) args = Val x →
  ∃ v', Emplace pos args (vec (xs ++ [l]) cap) = Ok v' pos ∧
        Size v' = S (Size (vec (xs ++ [l]) cap)) ∧
        contents v' = (Live <$> (take pos xs ++ x :: drop pos xs)) ++ [Raw] ∧
        invariant v' = false.
Proof.
  intros Hcap Hpos Hx. rewrite Emplace_spare, Hx by done.
  eexists. split; [done|].
  assert (length (take pos xs ++ x :: drop pos xs) = S (length xs)) as Hlen by len.
  assert (take (S (S (length xs)))
            ((Live <$> take pos xs ++ x :: drop pos xs)
             ++ replicate (cap - length (take pos xs ++ x :: drop pos xs)) Raw)
          = (Live <$> take pos xs ++ x :: drop pos xs) ++ [Raw]) as Htake.
  { rewrite Hlen, (replicate_S_sub cap (S (length xs))) by lia.
    rewrite take_app_ge by len.
    rewrite length_fmap, Hlen.
    by replace (S (S (length xs)) - S (length xs)) with 1 by lia. }
  split; [unfold Size; vsimpl; by rewrite length_snoc|].
  split; [exact Htake|].
  unfold invariant. vsimpl. rewrite Htake, forallb_app. cbn.
  by rewrite !andb_false_r.
Qed.

(** The invariant holds after every run of operations none of which is an
    insertion inside the block. *)
Lemma run_kept os : ∀ v v',
  invariant v = true → reallocating os v = true → run os v = Some v' →
  invariant v' = true.
Proof.
  induction os as [|o os IH]; intros v v' Hv Hos Hrun.
  - by injection Hrun as <-.
  - cbn [reallocating run] in *.
    apply andb_true_iff in Hos as [Hos Hrest].
    apply andb_true_iff in Hos as [Hshift Hother].
    apply negb_true_iff in Hshift.
    pose proof (step_kept o v Hv Hshift Hother) as Hstep.
    destruct (step o v) as [s []|s|]; [..|done]; by apply (IH s).
Qed.

(** The constructors establish the invariant. *)
Lemma constructors_kept v n :
  invariant v = true →
  invariant (Vector_default (T:=T)) = true ∧
  (∀ s, Vector_sized n = Val s → invariant s = true) ∧
  (∀ s, Vector_copy v = Val s → invariant s = true) ∧
  invariant (Vector_move v).1 = true ∧ invariant (Vector_move v).2 = true.
Proof.
  intros Hv. pose proof Hv as Hv'. apply invariant_holds in Hv as [xs Hv]. as_vec Hv cap.
  split; [done|]. split; [|split].
  - intros s. rewrite Vector_sized_eq.
    destruct value_init as [d|].
    + intros [= <-]. apply invariant_vec. len.
    + destruct n; [|done]. by intros [= <-].
  - intros s. rewrite Vector_copy_vec.
    destruct (existsb _ _); [done|]. intros [= <-]. by apply invariant_vec.
  - by rewrite Vector_move_vec.
Qed.
End Preservation.

(** ** The operations with an allocator *)

Section AllocationLemmas.
Context {T : Type} `{Element T}.

Implicit Types (a : allocator) (v w : Vector T) (xs ys : list T).

Lemma bytes_of_fits a n :
  fits a n = true → bytes_of a n = (N.of_nat n * Npos (sizeof a))%N.
Proof.
  unfold fits, bytes_of. intros Hfits. apply N.ltb_lt in Hfits.
  by apply N.mod_small.
Qed.

(** When the product does not wrap, the block has [n] slots or the
    allocation throws. *)
Lemma Allocate_in_fits a n :
  fits a n = true →
  Allocate_in (T:=T) a n = if granted a n then Val (Raw.Allocate n) else Exn.
Proof.
  intros Hfits. unfold Allocate_in, granted, Raw.Allocate.
  destruct (Nat.eqb_spec n 0) as [->|Hn]; [done|]. cbn [orb].
  destruct (grants a (bytes_of a n)); [|done].
  rewrite bytes_of_fits by done.
  by rewrite N.div_mul, Nat2N.id by done.
Qed.

Lemma make_in_fits a n :
  fits a n = true →
  make_in (T:=T) a n = if granted a n then Val (Raw.make n) else Exn.
Proof.
  intros Hfits. unfold make_in. rewrite Allocate_in_fits by done.
  by destruct (granted a n).
Qed.

(** [Reserve] with the allocator: without wrap-around it throws when the
    allocation does and otherwise does what [Reserve] with a block of
    [n] slots does. *)
Lemma Reserve_in_fits a n v :
  fits a n = true →
  Reserve_in a n v
  = if (n <=? Capacity v) || granted a n then Reserve n v else Throw v.
Proof.
  intros Hfits. unfold Reserve_in, Reserve.
  destruct (n <=? Capacity v); [done|]. cbn [orb].
  rewrite make_in_fits by done. by destruct (granted a n).
Qed.

Lemma Reserve_in_le a n v : n ≤ Capacity v → Reserve_in a n v = Ok v ().
Proof.
  intros Hn. unfold Reserve_in. by destruct (Nat.leb_spec n (Capacity v)); [|lia].
Qed.

(** An exception leaves [Reserve] with the vector as it was, whatever the
    allocator does. *)
Lemma Reserve_in_Throw a n v v' : Reserve_in a n v = Throw v' → v' = v.
Proof.
  unfold Reserve_in.
  destruct (_ <=? _); [done|].
  destruct (make_in a n) as [new_data| |]; cbn [try]; [|congruence|done].
  destruct (transfer_n _ _ _ _ _) as [[old nb]| |]; cbn [try]; [|congruence|done].
  destruct (destroy_n _ _ _) as [old'| |]; cbn [try]; [done|congruence|done].
Qed.

Lemma Resize_in_fits a n v :
  fits a n = true →
  Resize_in a n v
  = if (size_ v <? n) && (Capacity v <? n) && negb (granted a n) then Throw v
    else Resize n v.
Proof.
  intros Hfits. unfold Resize_in, Resize.
  destruct (size_ v <? n); [|done]. cbn [andb].
  destruct (Nat.ltb_spec (Capacity v) n) as [Hlt|Hle]; [|done]. cbn [andb].
  rewrite Reserve_in_fits by done.
  destruct (Nat.leb_spec n (Capacity v)); [lia|]. cbn [orb].
  by destruct (granted a n).
Qed.

Lemma Resize_in_le a n v : n ≤ Capacity v → Resize_in a n v = Resize n v.
Proof.
  intros Hn. unfold Resize_in, Resize.
  by destruct (Nat.ltb_spec (Capacity v) n); [lia|].
Qed.

Lemma Vector_sized_in_fits a n :
  fits a n = true →
  Vector_sized_in (T:=T) a n = if granted a n then Vector_sized n else Exn.
Proof.
  intros Hfits. unfold Vector_sized_in, Vector_sized.
  rewrite make_in_fits by done. by destruct (granted a n).
Qed.

Lemma Vector_sized_in_0 a : Vector_sized_in (T:=T) a 0 = Val Vector_default.
Proof. done. Qed.

Lemma step_in_kept a o v :
  invariant v = true → shifts_in_place o v = false → operand_ok o = true →
  request_fits a o = true → kept (step_in a o v).
Proof.
  intros Hv Hshift Hother Hfits.
  pose proof (step_kept o v Hv Hshift Hother) as Hstep.
  destruct o; try exact Hstep; cbn [step_in step request_fits] in *.
  - rewrite Reserve_in_fits by done. by destruct (_ || _).
  - rewrite Resize_in_fits by done. by destruct (_ && _).
Qed.

Lemma run_in_kept a os : ∀ v v',
  invariant v = true → reallocating_in a os v = true → run_in a os v = Some v' →
  invariant v' = true.
Proof.
  induction os as [|o os IH]; intros v v' Hv Hos Hrun.
  - by injection Hrun as <-.
  - cbn [reallocating_in run_in] in *.
    apply andb_true_iff in Hos as [Hos Hrest].
    apply andb_true_iff in Hos as [Hos Hfits].
    apply andb_true_iff in Hos as [Hshift Hother].
    apply negb_true_iff in Hshift.
    pose proof (step_in_kept a o v Hv Hshift Hother Hfits) as Hstep.
    destruct (step_in a o v) as [s []|s|]; [..|done]; by apply (IH s).
Qed.
End AllocationLemmas.

(** * The claims *)

(** ** Insertion inside the block (C1, C2, C3) *)

(** C1 (the code departs from the claim).  The vector {1,2,3} built by three
    [PushBack]s has capacity 4, so [Emplace(begin(), 9)] takes the in-place
    path; it returns an iterator to index 0 and the size becomes 4, but the
    first [std::move_backward] assigns the last element to itself instead of
    moving it to the free slot: the indices [0, 4) hold 9, 1, 2 and an
    uninitialized slot, not 9, 1, 2, 3. *)
Theorem Emplace_in_place_loses_last_element :
  push_all [1; 2; 3]%Z Vector_default = Some (vec [1; 2; 3]%Z 4) ∧
  Emplace 0 (@Pack Z int_element 9%Z) (vec [1; 2; 3]%Z 4)
  = Ok (mkVector (mkRaw [Live 9; Live 1; Live 2; Raw]%Z 4) 4) 0 ∧
  contents (mkVector (mkRaw [Live 9; Live 1; Live 2; Raw]%Z 4) 4)
  ≠ Live <$> [9; 1; 2; 3]%Z.
Proof. vm_compute. by repeat split. Qed.

(** C2 (the code departs from the claim).  [v.Insert(v.begin(), v[2])] on
    the vector {1,2,3}: the aliased value is copied out first and arrives
    intact in both paths.  With a full block (capacity 3) the result is
    {3,1,2,3}; with capacity 4, as three [PushBack]s leave it, the shifted
    last element is lost: 3, 1, 2 and an uninitialized slot. *)
Theorem Insert_own_element_in_place :
  Insert 0 (Own 2) (vec [1; 2; 3]%Z 3) = Ok (vec [3; 1; 2; 3]%Z 6) 0 ∧
  push_all [1; 2; 3]%Z Vector_default = Some (vec [1; 2; 3]%Z 4) ∧
  Insert 0 (Own 2) (vec [1; 2; 3]%Z 4)
  = Ok (mkVector (mkRaw [Live 3; Live 1; Live 2; Raw]%Z 4) 4) 0.
Proof. vm_compute. by repeat split. Qed.

(** C3 (the code departs from the claim).  After construction, three
    [PushBack]s and one [Insert] at [begin()] the size is 4 and index 3,
    inside [0, Size()), is uninitialized memory: the invariant is broken. *)
Theorem invariant_broken_by_in_place_insert :
  ∃ v : Vector Z,
    run [OpPushBack (Ext 1%Z); OpPushBack (Ext 2%Z); OpPushBack (Ext 3%Z);
         OpInsert 0 (Ext 9%Z)] Vector_default = Some v ∧
    Size v = 4 ∧ Capacity v = 4 ∧ buf v !! 3 = Some Raw ∧ invariant v = false.
Proof. eexists. vm_compute. by repeat split. Qed.

Section Claims.
Context {T : Type} `{Element T}.

Implicit Types (v w : Vector T) (xs ys : list T).

(** ** Moves (C4) *)

(** C4 (amended).  Move construction leaves the source valid and empty, with
    size and capacity 0, and the new vector holds the source's elements in
    order.  Move assignment between two distinct vectors exchanges them:
    the destination holds the source's elements in order, and the source is
    left valid holding the destination's former elements, so its size is
    the destination's former size. *)
Theorem move_exchanges_or_empties v w xs ys :
  holds v xs → holds w ys →
  ∃ d s d' s',
    Vector_move w = (d, s) ∧ holds d ys ∧ holds s [] ∧ Size s = 0 ∧ Capacity s = 0 ∧
    move_assign_vec v (Other w) = (d', Other s') ∧ holds d' ys ∧ holds s' xs ∧
    Size s' = Size v.
Proof.
  intros Hv Hw. exists w, Vector_default, w, v.
  rewrite move_assign_vec_eq.
  assert (Vector_move w = (w, Vector_default)) as -> by (by destruct w as [[??]?]).
  assert (holds (T:=T) Vector_default []) by (by split).
  done.
Qed.

(** ** Exceptions (C5) *)

(** C5 (amended).  When the construction of the new element from its
    arguments, [T(args...)] or the copy of a [const T&], throws, [Insert]
    and [Emplace] leave the vector exactly as it was, and [PushBack] and
    [EmplaceBack] leave size and elements as they were and the capacity too
    unless it was 0, in which case it is 1 afterwards.  [Reserve] throws
    when it has to copy an element whose copy throws, and whenever it
    throws, for a type whose transfer runs no move that can throw, the
    vector is exactly as it was. *)
Theorem throwing_construction_keeps_elements (a : allocator) v xs args pos n :
  holds v xs → construct_T v args = Exn → pos ≤ Size v →
  EmplaceBack args v = Throw (vec xs (Nat.max (Capacity v) 1)) ∧
  (∀ value, args = Lvalue value →
     PushBack value v = Throw (vec xs (Nat.max (Capacity v) 1))) ∧
  holds (vec xs (Nat.max (Capacity v) 1)) xs ∧
  (Capacity v ≠ 0 → vec xs (Nat.max (Capacity v) 1) = v) ∧
  Emplace pos args v = Throw v ∧
  (∀ value, args = Lvalue value → Insert pos value v = Throw v) ∧
  (strong_transfer = true → ∀ v', Reserve_in a n v = Throw v' → v' = v) ∧
  (Capacity v < n → fits a n = true → transfer_throws xs = true →
   Reserve_in a n v = Throw v).
Proof.
  intros Hv Hargs Hpos.
  assert (∀ v', Reserve_in a n v = Throw v' → v' = v) as Hthrow
    by (intros v'; apply Reserve_in_Throw).
  as_vec Hv cap.
  rewrite construct_T_vec in Hargs. unfold Size in Hpos; vsimpl.
  cbn [size_ vec] in Hpos.
  assert (Emplace pos args (vec xs cap) = Throw (vec xs cap)) as Hemplace.
  { unfold Emplace. rewrite construct_T_vec, Hargs. vsimpl.
    destruct (Nat.eqb_spec (length xs) cap) as [<-|]; [|done].
    by destruct (Nat.leb_spec pos (if length xs =? 0 then 1 else length xs * 2));
      [|destruct (Nat.eqb_spec (length xs) 0); lia]. }
  rewrite EmplaceBack_vec, Hargs by done.
  split; [done|].
  split; [intros value ->; by rewrite PushBack_vec, Hargs|].
  split; [apply holds_vec; lia|].
  split; [by intros; replace (Nat.max cap 1) with cap by lia|].
  split; [done|].
  split; [intros value ->; by rewrite Insert_vec|].
  split; [by intros _|].
  intros Hn Hfits Hcopy. rewrite Reserve_in_fits, Reserve_vec, Hcopy by done.
  destruct (Nat.leb_spec n cap); [lia|]. by destruct (_ || _).
Qed.

End Claims.

(** ** Growth (C6) *)

Lemma capacity_after_ge n : n ≤ capacity_after n.
Proof.
  unfold capacity_after. destruct (Nat.eqb_spec n 0) as [->|Hn]; [done|].
  destruct (decide (n = 1)) as [->|Hn1]; [done|].
  apply Nat.log2_up_spec. lia.
Qed.

Lemma capacity_after_S n : capacity_after (S n) = grown n (capacity_after n).
Proof.
  unfold capacity_after at 1. cbn [Nat.eqb].
  pose proof (capacity_after_ge n) as Hge. revert Hge.
  unfold grown, capacity_after.
  destruct (Nat.eqb_spec n 0) as [->|Hn]; [done|]. intros Hge.
  destruct (Nat.eqb_spec (2 ^ Nat.log2_up n) 0) as [H0|_].
  { by apply Nat.pow_nonzero in H0. }
  destruct (Nat.eqb_spec n (2 ^ Nat.log2_up n)) as [Heq|Hne].
  - rewrite Heq at 1. rewrite Nat.log2_up_succ_pow2 by lia.
    rewrite Nat.pow_succ_r'. lia.
  - f_equal. assert (1 < n) as Hn1.
    { destruct (decide (n = 1)) as [->|]; [|lia]. by destruct Hne. }
    pose proof (Nat.log2_up_spec n Hn1) as [Hlo Hhi].
    apply Nat.log2_up_unique; [|lia].
    destruct (Nat.log2_up n) eqn:Hk; [|lia]. simpl in *. lia.
Qed.

Section ClaimsGrowth.
Context {T : Type} `{Element T}.

Implicit Types (v w : Vector T) (xs ys : list T).

Lemma transfer_throws_copy xs :
  existsb copy_throws xs = false → transfer_throws xs = false.
Proof. unfold transfer_throws. intros ->. by destruct by_move. Qed.

Lemma push_all_from ys : ∀ xs,
  existsb copy_throws (xs ++ ys) = false →
  push_all ys (vec xs (capacity_after (length xs)))
  = Some (vec (xs ++ ys) (capacity_after (length (xs ++ ys)))).
Proof.
  induction ys as [|y ys IH]; intros xs Hcopy.
  - by rewrite app_nil_r.
  - cbn [push_all]. rewrite PushBack_vec by apply capacity_after_ge.
    rewrite existsb_app in Hcopy. apply orb_false_iff in Hcopy as [Hxs Hys].
    cbn [existsb] in Hys. apply orb_false_iff in Hys as [Hy Hys].
    cbn [made]. unfold copy_construct. rewrite Hy.
    rewrite transfer_throws_copy, andb_false_r by done.
    rewrite <- capacity_after_S, <- (length_snoc xs y), IH.
    + by rewrite <- app_assoc.
    + by rewrite !existsb_app, Hxs, Hys; cbn; rewrite Hy.
Qed.

(** C6.  [PushBack] and [EmplaceBack] that return leave capacity 1 when it
    was 0, twice the capacity when the vector was full, and the capacity
    unchanged when there was room; pushing the values [ys] into a
    default-constructed vector leaves the least power of two that is at
    least their number, so the snapshots are 0, 1, 2, 4, 8, ... *)
Theorem push_back_doubles_capacity v xs value args x y ys :
  holds v xs → construct_T v (Lvalue value) = Val x → construct_T v args = Val y →
  transfer_throws xs = false → existsb copy_throws ys = false →
  ∃ v1 v2,
    PushBack value v = Ok v1 () ∧ EmplaceBack args v = Ok v2 (Size v) ∧
    holds v1 (xs ++ [x]) ∧ holds v2 (xs ++ [y]) ∧ Capacity v2 = Capacity v1 ∧
    (Capacity v = 0 → Capacity v1 = 1) ∧
    (Capacity v ≠ 0 → Size v = Capacity v → Capacity v1 = Capacity v * 2) ∧
    (Size v < Capacity v → Capacity v1 = Capacity v) ∧
    push_all ys Vector_default = Some (vec ys (capacity_after (length ys))).
Proof.
  intros Hv Hvalue Hargs Hmove Hcopy. as_vec Hv cap.
  rewrite construct_T_vec in Hvalue, Hargs.
  exists (vec (xs ++ [x]) (grown (length xs) cap)),
         (vec (xs ++ [y]) (grown (length xs) cap)).
  rewrite PushBack_vec, EmplaceBack_vec, Hvalue, Hargs, Hmove, !andb_false_r by done.
  pose proof (grown_gt (length xs) cap Hle) as Hgt.
  split; [done|]. split; [done|].
  split; [apply holds_vec; rewrite length_snoc; lia|].
  split; [apply holds_vec; rewrite length_snoc; lia|].
  split; [done|]. unfold Size. vsimpl. unfold grown.
  split; [by intros ->|].
  split; [intros Hne ->; by destruct (Nat.eqb_spec cap 0); [|rewrite Nat.eqb_refl]|].
  split.
  - intros Hlt. destruct (Nat.eqb_spec cap 0); [lia|].
    by destruct (Nat.eqb_spec (length xs) cap); [lia|].
  - by apply (push_all_from ys []).
Qed.
End ClaimsGrowth.

Section ClaimsValues.
Context {T : Type} `{Element T}.

Implicit Types (v w : Vector T) (xs ys : list T).

(** ** Copy assignment (C7) *)

Lemma assignment_throws_none xs cap ys :
  existsb copy_throws ys = false → existsb assign_throws ys = false →
  assignment_throws xs cap ys = false.
Proof.
  intros Hcopy Hassign. unfold assignment_throws.
  destruct (cap <? length ys); [done|].
  rewrite <- (take_drop (length xs) ys), existsb_app in Hcopy, Hassign.
  apply orb_false_iff in Hcopy as [_ ->]. by apply orb_false_iff in Hassign as [-> _].
Qed.

(** C7.  A copy assignment [v = w] from another vector that returns leaves
    [v] with the size and the elements of [w], in order ([w] is only read);
    it returns when no copy and no assignment of an element of [w] throws;
    and when [w.Size() > v.Capacity()] it either returns, with a block of
    exactly [w.Size()] slots, or throws and leaves [v] exactly as it was. *)
Theorem copy_assign_takes_source_elements v w xs ys :
  holds v xs → holds w ys →
  (∀ v', copy_assign v (Other w) = Ok v' () → holds v' ys ∧ Size v' = Size w) ∧
  (existsb copy_throws ys = false → existsb assign_throws ys = false →
   ∃ v', copy_assign v (Other w) = Ok v' ()) ∧
  (Capacity v < Size w →
   copy_assign v (Other w)
   = if existsb copy_throws ys then Throw v else Ok (vec ys (Size w)) ()).
Proof.
  intros Hv Hw. as_vec Hv cap. as_vec Hw capw.
  destruct (copy_assign_vec xs cap ys capw) as (zs & Hzs & Hbig & ->); [done..|].
  unfold Size. vsimpl.
  assert (length ys ≤ (if cap <? length ys then length ys else cap)) as Hfit
    by (destruct (Nat.ltb_spec cap (length ys)); lia).
  split; [|split].
  - intros v'. destruct (assignment_throws _ _ _); [done|].
    intros [= <-]. split; [by apply holds_vec|done].
  - intros Hcopy Hassign. rewrite assignment_throws_none by done. eauto.
  - intros Hlt. rewrite (Hbig Hlt). unfold assignment_throws.
    by destruct (Nat.ltb_spec cap (length ys)); [|lia].
Qed.

(** ** Erase (C8) *)

(** C8.  [Erase(pos)] on a valid position returns an iterator to the same
    index; the elements before [pos] stay, those after it move one index
    toward the head in order, the size drops by one and the capacity stays.
    The returned index holds the element that followed the erased one, and
    is [end()] when the last element was erased. *)
Theorem Erase_removes_one_element v xs pos :
  holds v xs → pos < Size v →
  ∃ v' ys,
    Erase pos v = Ok v' pos ∧ holds v' ys ∧
    ys = take pos xs ++ drop (S pos) xs ∧
    (∀ i, i < pos → ys !! i = xs !! i) ∧
    (∀ i, pos ≤ i → ys !! i = xs !! S i) ∧
    Size v' = Size v - 1 ∧ Capacity v' = Capacity v ∧
    (S pos = Size v → pos = end_ v').
Proof.
  intros Hv Hpos. as_vec Hv cap. unfold Size in *. cbn [vec size_] in Hpos.
  exists (vec (take pos xs ++ drop (S pos) xs) cap), (take pos xs ++ drop (S pos) xs).
  rewrite Erase_vec by done.
  assert (length (take pos xs ++ drop (S pos) xs) = length xs - 1) as Hlen by len.
  split; [done|]. split; [apply holds_vec; lia|]. split; [done|].
  split; [|split].
  - intros i Hi. rewrite lookup_app_l by len. by apply lookup_take_lt.
  - intros i Hi. rewrite lookup_app_r by len.
    rewrite lookup_drop. f_equal. len.
  - unfold end_. vsimpl. rewrite Hlen. repeat split; lia.
Qed.

(** ** Reserve (C9) *)

(** C9 (amended).  [Reserve(n)] with [n <= Capacity()] returns and changes
    nothing.  With [n > Capacity()], and [n * sizeof(T)] within [size_t], it
    either returns, and then the capacity is exactly [n] with the same size
    and the same elements, or throws: it throws when the allocation fails
    or copying an element throws.  For a type whose transfer runs no move
    that can throw it returns otherwise, and whenever it throws the vector
    is exactly as it was. *)
Theorem Reserve_keeps_elements (a : allocator) v xs n :
  holds v xs →
  (n ≤ Capacity v → Reserve_in a n v = Ok v ()) ∧
  (strong_transfer = true → ∀ v', Reserve_in a n v = Throw v' → v' = v) ∧
  (Capacity v < n → fits a n = true →
   (∀ v', Reserve_in a n v = Ok v' () →
      holds v' xs ∧ Capacity v' = n ∧ Size v' = Size v) ∧
   (strong_transfer = true → granted a n = true → transfer_throws xs = false →
    Reserve_in a n v = Ok (vec xs n) ()) ∧
   (granted a n = false ∨ transfer_throws xs = true →
    Reserve_in a n v = Throw v)).
Proof.
  intros Hv. split; [apply Reserve_in_le|].
  split; [intros _ v'; apply Reserve_in_Throw|].
  intros Hn Hfits. as_vec Hv cap. revert Hn. unfold Size. vsimpl. intros Hn.
  rewrite Reserve_in_fits, Reserve_vec by done. vsimpl.
  destruct (Nat.leb_spec n cap); [lia|]. cbn [orb].
  split; [|split].
  - intros v'. destruct (granted a n); [|done].
    destruct (transfer_throws xs); [done|]. intros [= <-].
    split; [apply holds_vec; lia|done].
  - by intros _ -> ->.
  - intros [-> | ->]; [done|]. by destruct (granted a n).
Qed.

(** ** EmplaceBack (C10) *)

(** C10.  An [EmplaceBack(args...)] that returns has constructed one element
    from the arguments and appended it: the size grew by one, the former
    elements are the first [Size()] elements as before, and the reference
    returned is to the new last element, at the index of the former size.
    It returns whenever the construction and the transfer do not throw. *)
Theorem EmplaceBack_appends_one_element v xs args :
  holds v xs →
  (∀ v' r, EmplaceBack args v = Ok v' r →
     ∃ x, construct_T v args = Val x ∧ holds v' (xs ++ [x]) ∧
          Size v' = S (Size v) ∧ r = Size v ∧
          (xs ++ [x]) !! r = Some x ∧ take (Size v) (xs ++ [x]) = xs) ∧
  (∀ x, construct_T v args = Val x → transfer_throws xs = false →
     ∃ v', EmplaceBack args v = Ok v' (Size v)).
Proof.
  intros Hv. as_vec Hv cap. rewrite construct_T_vec, EmplaceBack_vec by done.
  unfold Size. vsimpl.
  pose proof (grown_gt (length xs) cap Hle) as Hgt.
  split.
  - intros v' r. destruct (made xs args) as [x| |]; [|done..].
    destruct (_ && _); [done|]. intros [= <- <-]. exists x.
    split; [done|]. split; [apply holds_vec; rewrite length_snoc; lia|].
    cbn [vec size_]. rewrite length_snoc.
    split; [done|]. split; [done|].
    split; [by apply list_lookup_middle|by apply take_app_length].
  - intros x -> ->. rewrite andb_false_r. eauto.
Qed.
End ClaimsValues.

(** ** The claims at concrete vectors *)

Ltac holds_here := split; [vm_compute; lia | reflexivity].

(** Move assignment into a vector that holds an element: afterwards the
    source holds that element, its size is 1. *)
Lemma move_assign_source_not_empty :
  invariant (vec [1]%Z 1) = true ∧ invariant (vec [2; 3]%Z 2) = true ∧
  ∃ s, move_assign_vec (vec [1]%Z 1) (Other (vec [2; 3]%Z 2))
       = (vec [2; 3]%Z 2, Other s) ∧ Size s ≠ 0.
Proof. split; [done|]. split; [done|]. by exists (vec [1]%Z 1). Qed.

Lemma move_exchanges_or_empties_witness :
  ∃ d s d' s' : Vector Z,
    Vector_move (vec [2; 3]%Z 2) = (d, s) ∧ holds d [2; 3]%Z ∧ holds s [] ∧
    Size s = 0 ∧ Capacity s = 0 ∧
    move_assign_vec (vec [1]%Z 1) (Other (vec [2; 3]%Z 2)) = (d', Other s') ∧
    holds d' [2; 3]%Z ∧ holds s' [1]%Z ∧ Size s' = Size (vec [1]%Z 1).
Proof.
  apply (move_exchanges_or_empties (vec [1]%Z 1) (vec [2; 3]%Z 2));
    (split; [vm_compute; lia | reflexivity]).
Defined.

(** [PushBack] of a value whose copy throws, into a default-constructed
    vector: the exception leaves capacity 1 where it was 0. *)
Lemma PushBack_throw_changes_capacity :
  construct_T (Vector_default (T:=obj)) (Lvalue (Ext (Obj 1 true))) = Exn ∧
  ∃ v', PushBack (Ext (Obj 1 true)) Vector_default = Throw v' ∧
        Capacity v' ≠ Capacity (Vector_default (T:=obj)).
Proof. split; [done|]. by exists (vec [] 1). Qed.

Lemma push_back_doubles_capacity_witness :
  (∃ v1 v2 : Vector Z,
    PushBack (Ext 3%Z) (vec [1; 2]%Z 2) = Ok v1 () ∧
    EmplaceBack (@Pack Z int_element 4%Z) (vec [1; 2]%Z 2) = Ok v2 2 ∧
    holds v1 [1; 2; 3]%Z ∧ holds v2 [1; 2; 4]%Z ∧ Capacity v2 = Capacity v1 ∧
    (2 = 0 → Capacity v1 = 1) ∧
    (2 ≠ 0 → 2 = 2 → Capacity v1 = 4) ∧
    (2 < 2 → Capacity v1 = 2) ∧
    push_all [1; 2; 3; 4; 5]%Z Vector_default = Some (vec [1; 2; 3; 4; 5]%Z 8)) ∧
  capacity_after <$> [0; 1; 2; 3; 4; 5; 8; 9] = [0; 1; 2; 4; 4; 8; 8; 16].
Proof.
  split; [|reflexivity].
  apply (push_back_doubles_capacity (vec [1; 2]%Z 2) [1; 2]%Z (Ext 3%Z)
           (@Pack Z int_element 4%Z) 3%Z 4%Z [1; 2; 3; 4; 5]%Z).
  - split; [vm_compute; lia | reflexivity].
  - reflexivity.
  - reflexivity.
  - reflexivity.
  - reflexivity.
Defined.

Lemma copy_assign_takes_source_elements_witness :
  (∀ v', copy_assign (vec [1]%Z 1) (Other (vec [7; 8; 9]%Z 3)) = Ok v' () →
     holds v' [7; 8; 9]%Z ∧ Size v' = 3) ∧
  (existsb copy_throws [7; 8; 9]%Z = false → existsb assign_throws [7; 8; 9]%Z = false →
   ∃ v', copy_assign (vec [1]%Z 1) (Other (vec [7; 8; 9]%Z 3)) = Ok v' ()) ∧
  (1 < 3 →
   copy_assign (vec [1]%Z 1) (Other (vec [7; 8; 9]%Z 3)) = Ok (vec [7; 8; 9]%Z 3) ()).
Proof.
  assert (holds (vec [1]%Z 1) [1]%Z) as Hv
    by (split; [vm_compute; lia | reflexivity]).
  assert (holds (vec [7; 8; 9]%Z 3) [7; 8; 9]%Z) as Hw
    by (split; [vm_compute; lia | reflexivity]).
  exact (copy_assign_takes_source_elements _ _ _ _ Hv Hw).
Defined.

Lemma Erase_removes_one_element_witness :
  (∃ (v' : Vector Z) ys,
    Erase 1 (vec [1; 2; 3]%Z 3) = Ok v' 1 ∧ holds v' ys ∧
    ys = [1; 3]%Z ∧
    (∀ i, i < 1 → ys !! i = [1; 2; 3]%Z !! i) ∧
    (∀ i, 1 ≤ i → ys !! i = [1; 2; 3]%Z !! S i) ∧
    Size v' = 2 ∧ Capacity v' = 3 ∧
    (2 = 3 → 1 = end_ v')) ∧
  Erase 1 (vec [1; 2; 3]%Z 3) = Ok (vec [1; 3]%Z 3) 1 ∧
  buf (vec [1; 3]%Z 3) !! 1 = Some (Live 3%Z).
Proof.
  split; [|by split].
  apply (Erase_removes_one_element (vec [1; 2; 3]%Z 3) [1; 2; 3]%Z 1).
  - split; [vm_compute; lia | reflexivity].
  - vm_compute; lia.
Defined.

Lemma EmplaceBack_appends_one_element_witness :
  (∀ (v' : Vector Z) r,
     EmplaceBack (@Pack Z int_element 3%Z) (vec [1; 2]%Z 2) = Ok v' r →
     ∃ x, construct_T (vec [1; 2]%Z 2) (@Pack Z int_element 3%Z) = Val x ∧
          holds v' ([1; 2]%Z ++ [x]) ∧ Size v' = 3 ∧ r = 2 ∧
          ([1; 2]%Z ++ [x]) !! r = Some x ∧ take 2 ([1; 2]%Z ++ [x]) = [1; 2]%Z) ∧
  (∀ x, construct_T (vec [1; 2]%Z 2) (@Pack Z int_element 3%Z) = Val x →
     transfer_throws [1; 2]%Z = false →
     ∃ v', EmplaceBack (@Pack Z int_element 3%Z) (vec [1; 2]%Z 2) = Ok v' 2).
Proof.
  apply (EmplaceBack_appends_one_element (vec [1; 2]%Z 2) [1; 2]%Z).
  split; [vm_compute; lia | reflexivity].
Defined.

(** C9, as the specification words it, fails when the allocation does: on a
    heap with 2^40 bytes free, [Reserve(2^45)] on a vector of two [int]s
    throws, and the capacity is 2 as before, not 2^45. *)
Lemma Reserve_refused_keeps_capacity :
  Capacity (vec [1; 2]%Z 2) < 2 ^ 45 ∧
  ∃ v', Reserve_in (heap_with 4 (2 ^ 40)) (2 ^ 45) (vec [1; 2]%Z 2) = Throw v' ∧
        Capacity v' ≠ 2 ^ 45.
Proof.
  assert (2 < 2 ^ 45) as Hn.
  { pose proof (Nat.pow_gt_lin_r 2 45). lia. }
  split; [exact Hn|].
  exists (vec [1; 2]%Z 2). split; [|change (2 ≠ 2 ^ 45); lia].
  assert (fits (heap_with 4 (2 ^ 40)) (2 ^ 45) = true) as Hfits.
  { unfold fits. rewrite Nat2N.inj_pow. reflexivity. }
  rewrite Reserve_in_fits by exact Hfits.
  change (Capacity (vec [1; 2]%Z 2)) with 2.
  destruct (Nat.leb_spec (2 ^ 45) 2) as [?|_]; [lia|].
  assert (granted (heap_with 4 (2 ^ 40)) (2 ^ 45) = false) as ->; [|done].
  unfold granted. rewrite bytes_of_fits by exact Hfits.
  destruct (Nat.eqb_spec (2 ^ 45) 0) as [?|_]; [lia|].
  rewrite Nat2N.inj_pow. reflexivity.
Qed.

(** What the amended C9 leaves out: a request whose byte count wraps around
    is answered with a block for fewer elements.  [Reserve(2^62)] on an
    empty vector of [int]s asks for [2^64 mod 2^64 = 0] bytes, returns, and
    leaves [Capacity() = 2^62] over a block without a single slot. *)
Lemma Reserve_wrapped_block free :
  fits (heap_with 4 free) (2 ^ 62) = false ∧
  Reserve_in (heap_with 4 free) (2 ^ 62) (Vector_default (T:=Z))
  = Ok (mkVector (mkRaw [] (2 ^ 62)) 0) ().
Proof.
  assert (0 < 2 ^ 62) as Hn.
  { pose proof (Nat.pow_gt_lin_r 2 62). lia. }
  assert (bytes_of (heap_with 4 free) (2 ^ 62) = 0%N) as Hbytes.
  { unfold bytes_of. rewrite Nat2N.inj_pow. reflexivity. }
  split.
  { unfold fits. rewrite Nat2N.inj_pow. reflexivity. }
  unfold Reserve_in, make_in, Allocate_in. rewrite Hbytes.
  change (Capacity (Vector_default (T:=Z))) with 0.
  destruct (Nat.leb_spec (2 ^ 62) 0) as [?|_]; [lia|].
  destruct (Nat.eqb_spec (2 ^ 62) 0) as [?|_]; [lia|].
  by destruct free.
Qed.

Lemma throwing_construction_keeps_elements_witness :
  (EmplaceBack (Lvalue (Own 1)) (vec [Obj 1 false; Obj 2 true] 2)
   = Throw (vec [Obj 1 false; Obj 2 true] 2) ∧
   PushBack (Own 1) (vec [Obj 1 false; Obj 2 true] 2)
   = Throw (vec [Obj 1 false; Obj 2 true] 2) ∧
   Emplace 1 (Lvalue (Own 1)) (vec [Obj 1 false; Obj 2 true] 2)
   = Throw (vec [Obj 1 false; Obj 2 true] 2) ∧
   Insert 1 (Own 1) (vec [Obj 1 false; Obj 2 true] 2)
   = Throw (vec [Obj 1 false; Obj 2 true] 2) ∧
   Reserve_in (heap_with 8 1024) 5 (vec [Obj 1 false; Obj 2 true] 2)
   = Throw (vec [Obj 1 false; Obj 2 true] 2)) ∧
  (EmplaceBack (@Pack obj obj_element (3, true)) (vec [Obj 1 false; Obj 2 false] 4)
   = Throw (vec [Obj 1 false; Obj 2 false] 4) ∧
   Emplace 1 (@Pack obj obj_element (3, true)) (vec [Obj 1 false; Obj 2 false] 4)
   = Throw (vec [Obj 1 false; Obj 2 false] 4)) ∧
  (EmplaceBack (@Pack obj obj_element (1, true)) Vector_default = Throw (vec [] 1) ∧
   PushBack (Ext (Obj 1 true)) Vector_default = Throw (vec [] 1) ∧
   Insert 0 (Ext (Obj 1 true)) Vector_default = Throw Vector_default).
Proof.
  split; [|split].
  - assert (holds (vec [Obj 1 false; Obj 2 true] 2) [Obj 1 false; Obj 2 true])
      as Hv by holds_here.
    assert (1 ≤ Size (vec [Obj 1 false; Obj 2 true] 2)) as Hpos
      by (vm_compute; lia).
    assert (Capacity (vec [Obj 1 false; Obj 2 true] 2) < 5) as Hn
      by (vm_compute; lia).
    assert (construct_T (vec [Obj 1 false; Obj 2 true] 2) (Lvalue (Own 1)) = Exn)
      as Hthrow by reflexivity.
    destruct (throwing_construction_keeps_elements (heap_with 8 1024) _ _
                (Lvalue (Own 1)) 1 5 Hv Hthrow Hpos)
      as (Hback & Hpush & _ & _ & Hemplace & Hinsert & _ & Hreserve).
    split; [exact Hback|]. split; [exact (Hpush _ eq_refl)|].
    split; [exact Hemplace|]. split; [exact (Hinsert _ eq_refl)|].
    exact (Hreserve Hn eq_refl eq_refl).
  - assert (holds (vec [Obj 1 false; Obj 2 false] 4) [Obj 1 false; Obj 2 false])
      as Hv by holds_here.
    assert (1 ≤ Size (vec [Obj 1 false; Obj 2 false] 4)) as Hpos
      by (vm_compute; lia).
    assert (construct_T (vec [Obj 1 false; Obj 2 false] 4)
              (@Pack obj obj_element (3, true)) = Exn) as Hthrow by reflexivity.
    destruct (throwing_construction_keeps_elements (heap_with 8 1024) _ _
                (@Pack obj obj_element (3, true)) 1 5 Hv Hthrow Hpos)
      as (Hback & _ & _ & _ & Hemplace & _).
    split; [exact Hback | exact Hemplace].
  - assert (holds (Vector_default (T:=obj)) []) as Hv by holds_here.
    assert (0 ≤ Size (Vector_default (T:=obj))) as Hpos by (vm_compute; lia).
    assert (construct_T Vector_default (@Pack obj obj_element (1, true)) = Exn)
      as Hpack by reflexivity.
    assert (construct_T Vector_default (Lvalue (Ext (Obj 1 true))) = Exn)
      as Hcopy by reflexivity.
    destruct (throwing_construction_keeps_elements (heap_with 8 1024) _ _
                (@Pack obj obj_element (1, true)) 0 1 Hv Hpack Hpos)
      as (Hback & _).
    destruct (throwing_construction_keeps_elements (heap_with 8 1024) _ _
                (Lvalue (Ext (Obj 1 true))) 0 1 Hv Hcopy Hpos)
      as (_ & Hpush & _ & _ & _ & Hinsert & _).
    split; [exact Hback|].
    split; [exact (Hpush _ eq_refl) | exact (Hinsert _ eq_refl)].
Defined.

Lemma Reserve_keeps_elements_witness :
  Reserve_in (heap_with 4 1024) 1 (vec [1; 2]%Z 2) = Ok (vec [1; 2]%Z 2) () ∧
  Reserve_in (heap_with 4 1024) 10 (vec [1; 2]%Z 2) = Ok (vec [1; 2]%Z 10) () ∧
  Reserve_in (heap_with 4 16) 10 (vec [1; 2]%Z 2) = Throw (vec [1; 2]%Z 2) ∧
  Reserve_in (heap_with 8 1024) 10 (vec [Obj 1 true] 1) = Throw (vec [Obj 1 true] 1).
Proof.
  assert (holds (vec [1; 2]%Z 2) [1; 2]%Z) as Hv by holds_here.
  assert (holds (vec [Obj 1 true] 1) [Obj 1 true]) as Hw by holds_here.
  assert (1 ≤ Capacity (vec [1; 2]%Z 2)) as Hle by (vm_compute; lia).
  assert (Capacity (vec [1; 2]%Z 2) < 10) as Hlt by (vm_compute; lia).
  assert (Capacity (vec [Obj 1 true] 1) < 10) as Hlt' by (vm_compute; lia).
  split; [|split; [|split]].
  - exact (proj1 (Reserve_keeps_elements (heap_with 4 1024) _ _ 1 Hv) Hle).
  - destruct (Reserve_keeps_elements (heap_with 4 1024) _ _ 10 Hv)
      as (_ & _ & Hgrow).
    destruct (Hgrow Hlt eq_refl) as (_ & Hok & _).
    exact (Hok eq_refl eq_refl eq_refl).
  - destruct (Reserve_keeps_elements (heap_with 4 16) _ _ 10 Hv)
      as (_ & _ & Hgrow).
    destruct (Hgrow Hlt eq_refl) as (_ & _ & Hthrow).
    exact (Hthrow (or_introl eq_refl)).
  - destruct (Reserve_keeps_elements (heap_with 8 1024) _ _ 10 Hw)
      as (_ & _ & Hgrow).
    destruct (Hgrow Hlt' eq_refl) as (_ & _ & Hthrow).
    exact (Hthrow (or_intror eq_refl)).
Defined.

(** * Further properties of the code *)

Section Further.
Context {T : Type} `{Element T}.

Implicit Types (v w : Vector T) (xs ys : list T).

(** ** PopBack and PushBack(T&&) *)

(** X1.  [PopBack] on an empty vector fails its assertion; on a vector with
    elements it returns, removes exactly the last element and keeps the
    others and the capacity. *)
Theorem PopBack_removes_last_element v xs :
  holds v xs →
  (Size v = 0 → PopBack v = UB) ∧
  (0 < Size v →
   ∃ v', PopBack v = Ok v' () ∧ holds v' (take (Size v - 1) xs) ∧
         Size v' = Size v - 1 ∧ Capacity v' = Capacity v).
Proof.
  intros Hv. as_vec Hv cap. unfold Size. vsimpl. split.
  - intros Hsize. unfold PopBack. vsimpl. by rewrite Hsize.
  - intros Hsize. destruct xs as [|x xs _] using rev_ind; [simpl in Hsize; lia|].
    rewrite length_snoc in *. exists (vec xs cap).
    rewrite PopBack_vec by lia. rewrite Nat.sub_succ, Nat.sub_0_r, take_app_length.
    split; [done|]. split; [apply holds_vec; lia|]. done.
Qed.

(** X3.  [PopBack] undoes [EmplaceBack]: after an [EmplaceBack] that
    returned, [PopBack] returns and the elements are those before the
    [EmplaceBack]; the capacity stays as the [EmplaceBack] left it. *)
Theorem PopBack_undoes_EmplaceBack v xs args v1 r :
  holds v xs → EmplaceBack args v = Ok v1 r →
  ∃ v2, PopBack v1 = Ok v2 () ∧ holds v2 xs ∧ Capacity v2 = Capacity v1.
Proof.
  intros Hv. as_vec Hv cap. rewrite EmplaceBack_vec by done.
  pose proof (grown_gt (length xs) cap Hle) as Hgt.
  destruct (made xs args) as [x| |]; [|done..].
  destruct (_ && _); [done|]. intros [= <- <-].
  exists (vec xs (grown (length xs) cap)). rewrite PopBack_vec by done.
  split; [done|]. split; [apply holds_vec; lia|done].
Qed.

(** X2.  For an element type whose move constructor is [noexcept],
    [PushBack(T&&)] returns with the value appended: the size grows by one,
    the capacity becomes 1 from 0, doubles when the vector was full and
    stays otherwise. *)
Theorem PushBack_move_appends v xs x :
  is_nothrow_move_constructible = true → holds v xs →
  ∃ v', PushBack_move x v = Ok v' () ∧ holds v' (xs ++ [x]) ∧
        Size v' = S (Size v) ∧
        Capacity v' = if Capacity v =? 0 then 1
                      else if Size v =? Capacity v then Capacity v * 2
                      else Capacity v.
Proof.
  intros Hmove Hv. as_vec Hv cap. rewrite PushBack_move_vec by done.
  assert (transfer_throws xs = false) as ->.
  { unfold transfer_throws, by_move. by rewrite Hmove. }
  rewrite andb_false_r.
  unfold Size. vsimpl. pose proof (grown_gt (length xs) cap Hle) as Hgt.
  exists (vec (xs ++ [x]) (grown (length xs) cap)).
  split; [done|]. split; [apply holds_vec; rewrite length_snoc; lia|].
  cbn [vec size_]. by rewrite length_snoc.
Qed.

(** ** Resize *)

(** X4.  For a type whose [T()] does not throw and elements whose transfer
    does not throw: [Resize(n)] within the capacity allocates nothing;
    beyond it, with [n * sizeof(T)] within [size_t], it throws and leaves
    the vector as it was when the allocation fails.  Otherwise it returns
    with size [n]: a growing one appends [n - Size()] value-initialised
    elements and leaves capacity [max(Capacity(), n)], a shrinking one
    keeps the first [n] elements and the capacity. *)
Theorem Resize_appends_or_truncates (a : allocator) v xs n d :
  strong_transfer = true →
  holds v xs → value_init = Some d → transfer_throws xs = false →
  n ≤ Capacity v ∨ fits a n = true →
  (Capacity v < n → granted a n = false → Resize_in a n v = Throw v) ∧
  (n ≤ Capacity v ∨ granted a n = true →
   ∃ v', Resize_in a n v = Ok v' () ∧ Size v' = n ∧
         (Size v < n →
          holds v' (xs ++ replicate (n - Size v) d) ∧
          Capacity v' = Nat.max (Capacity v) n) ∧
         (n ≤ Size v → holds v' (take n xs) ∧ Capacity v' = Capacity v)).
Proof.
  intros _ Hv Hd Hmove Hreq. as_vec Hv cap. revert Hreq. unfold Size. vsimpl.
  intros Hreq.
  assert (Resize_in a n (vec xs cap)
          = if (length xs <? n) && (cap <? n) && negb (granted a n)
            then Throw (vec xs cap) else Resize n (vec xs cap)) as ->.
  { destruct Hreq as [Hn|Hfits]; [|by rewrite Resize_in_fits].
    rewrite Resize_in_le by done.
    by destruct (Nat.ltb_spec cap n); [lia|rewrite andb_false_r]. }
  rewrite Resize_vec, Hd, Hmove by done. rewrite andb_false_r.
  split.
  - intros Hn ->. destruct (Nat.ltb_spec (length xs) n); [|lia].
    by destruct (Nat.ltb_spec cap n); [|lia].
  - intros Hok.
    assert ((length xs <? n) && (cap <? n) && negb (granted a n) = false) as ->.
    { destruct Hok as [Hn| ->]; [|by rewrite andb_false_r].
      by destruct (Nat.ltb_spec cap n); [lia|rewrite andb_false_r]. }
    destruct (Nat.ltb_spec (length xs) n) as [Hgrow|Hkeep].
    + eexists. split; [done|]. cbn [vec size_].
      split; [len|]. split; [|lia].
      intros _. split; [apply holds_vec; len|done].
    + eexists. split; [done|]. cbn [vec size_].
      split; [len|]. split; [lia|].
      intros _. split; [apply holds_vec; len|done].
Qed.

(** X5.  When [T()] throws while [Resize(n)] grows a vector whose elements
    are transferred without a throw, size and elements are as before; if
    [n] is beyond the capacity and the new block was allocated, the
    capacity is [n] all the same: the reallocation is not undone. *)
Theorem Resize_throw_keeps_new_capacity (a : allocator) v xs n :
  strong_transfer = true →
  holds v xs → value_init = None → transfer_throws xs = false → Size v < n →
  n ≤ Capacity v ∨ fits a n = true ∧ granted a n = true →
  ∃ v', Resize_in a n v = Throw v' ∧ holds v' xs ∧ Size v' = Size v ∧
        Capacity v' = Nat.max (Capacity v) n.
Proof.
  intros _ Hv Hd Hmove Hn Hreq. as_vec Hv cap. revert Hn Hreq. unfold Size. vsimpl.
  intros Hn Hreq.
  assert (Resize_in a n (vec xs cap) = Resize n (vec xs cap)) as ->.
  { destruct Hreq as [Hle'|[Hfits Hgranted]]; [by apply Resize_in_le|].
    by rewrite Resize_in_fits, Hgranted, andb_false_r. }
  rewrite Resize_vec, Hd, Hmove by done. rewrite andb_false_r.
  destruct (Nat.ltb_spec (length xs) n); [|lia].
  eexists. split; [done|]. split; [apply holds_vec; lia|done].
Qed.

(** ** Constructors and destructor *)

(** X6.  [Vector(n)], with [n * sizeof(T)] within [size_t], throws when the
    allocation fails or [T()] throws on one of [n > 0] elements, and
    otherwise holds [n] value-initialised elements in a block of exactly
    [n] slots; [Vector(0)] allocates nothing, constructs nothing and gives
    the empty vector. *)
Theorem Vector_sized_value_initialises (a : allocator) n :
  fits a n = true →
  (∀ d : T, value_init = Some d → granted a n = true →
     ∃ v, Vector_sized_in a n = Val v ∧ holds v (replicate n d) ∧
          Size v = n ∧ Capacity v = n) ∧
  (granted a n = false → Vector_sized_in (T:=T) a n = Exn) ∧
  (value_init (T:=T) = None → 0 < n → Vector_sized_in (T:=T) a n = Exn) ∧
  Vector_sized_in (T:=T) a 0 = Val Vector_default.
Proof.
  intros Hfits. rewrite Vector_sized_in_fits, !Vector_sized_eq by done.
  split; [|split; [|split]].
  - intros d -> ->. eexists. split; [done|].
    split; [apply holds_vec; len|]. unfold Size. vsimpl. split; [len|done].
  - by intros ->.
  - intros -> Hn. destruct (granted a n); [|done]. by destruct n; [lia|].
  - done.
Qed.

(** X7.  The copy constructor gives a vector with the elements of the
    source, in order, in a block of exactly [Size()] slots, whatever the
    capacity of the source; it throws exactly when copying one of the
    elements throws. *)
Theorem Vector_copy_fits_size w ys :
  holds w ys →
  (existsb copy_throws ys = true → Vector_copy w = Exn) ∧
  (existsb copy_throws ys = false →
   ∃ v, Vector_copy w = Val v ∧ holds v ys ∧ Size v = Size w ∧
        Capacity v = Size w).
Proof.
  intros Hw. as_vec Hw cap. rewrite Vector_copy_vec. split; intros ->; [done|].
  eexists. split; [done|]. split; [by apply holds_vec|done].
Qed.

(** X8.  The destructor destroys every element of a vector that satisfies
    the invariant: it runs into no uninitialized slot, and all slots of the
    block are uninitialized afterwards. *)
Theorem Vector_destroy_destroys_all v xs :
  holds v xs → Vector_destroy v = Val (replicate (Capacity v) Raw).
Proof.
  intros Hv. as_vec Hv cap. rewrite Vector_destroy_vec. vsimpl.
  f_equal. rewrite <- replicate_add. f_equal. lia.
Qed.
End Further.

Section FurtherPositions.
Context {T : Type} `{Element T}.

Implicit Types (v w : Vector T) (xs ys : list T).

(** ** Insertion into a full vector *)

(** X9.  [Emplace(pos, args...)] into a full vector, at any position from
    [begin()] to [end()], returns an iterator to [pos]; the elements are the
    former ones before [pos], the new element, and the former ones from
    [pos] on; the capacity is 1 if it was 0 and doubles otherwise. *)
Theorem Emplace_full_inserts v xs pos args x :
  holds v xs → Size v = Capacity v → pos ≤ Size v →
  construct_T v args = Val x → transfer_throws xs = false →
  ∃ v' ys,
    Emplace pos args v = Ok v' pos ∧ holds v' ys ∧
    ys = take pos xs ++ x :: drop pos xs ∧
    ys !! pos = Some x ∧
    (∀ i, i < pos → ys !! i = xs !! i) ∧
    (∀ i, pos ≤ i → ys !! S i = xs !! i) ∧
    Size v' = S (Size v) ∧
    Capacity v' = if Capacity v =? 0 then 1 else Capacity v * 2.
Proof.
  intros Hv Hfull Hpos Hx Hmove. as_vec Hv cap. unfold Size in *.
  cbn [vec size_ data_ Capacity Raw.Capacity capacity_] in Hfull, Hpos. subst cap.
  rewrite construct_T_vec in Hx. rewrite Emplace_full, Hx, Hmove by done.
  assert (length (take pos xs) = pos) as Htake by (rewrite length_take; lia).
  assert (length (take pos xs ++ x :: drop pos xs) = S (length xs)) as Hlen by len.
  eexists _, _. split; [done|].
  split; [apply holds_vec; rewrite Hlen; destruct (Nat.eqb_spec (length xs) 0); lia|].
  split; [done|]. split; [by apply list_lookup_middle|].
  split; [|split].
  - intros i Hi. rewrite lookup_app_l by lia. by apply lookup_take_lt.
  - intros i Hi. rewrite lookup_app_r by lia. rewrite Htake.
    replace (S i - pos) with (S (i - pos)) by lia.
    change (drop pos xs !! (i - pos) = xs !! i).
    rewrite lookup_drop. f_equal. lia.
  - vsimpl. by rewrite Hlen.
Qed.

(** X10.  [Insert(pos, const T& value)] gives what [Emplace(pos, value)]
    gives, whether [value] is an element of the vector itself or not: the
    temporary copy that [Insert] makes of an own element changes nothing,
    because [Emplace] constructs the new element before it touches the
    elements. *)
Theorem Insert_is_Emplace v xs pos value :
  holds v xs → pos ≤ Size v →
  Insert pos value v = Emplace pos (Lvalue value) v.
Proof.
  intros Hv Hpos. as_vec Hv cap. by apply Insert_vec.
Qed.

(** X11.  [Erase] undoes an insertion into a full vector: erasing at the
    iterator that [Emplace] returned gives back the former elements, in the
    block that [Emplace] allocated. *)
Theorem Erase_undoes_Emplace_full v xs pos args v1 r :
  holds v xs → Size v = Capacity v → pos ≤ Size v →
  Emplace pos args v = Ok v1 r →
  ∃ v2, Erase r v1 = Ok v2 r ∧ holds v2 xs ∧ Capacity v2 = Capacity v1.
Proof.
  intros Hv Hfull Hpos. as_vec Hv cap. unfold Size in *.
  cbn [vec size_ data_ Capacity Raw.Capacity capacity_] in Hfull, Hpos. subst cap.
  rewrite Emplace_full by done.
  destruct (made xs args) as [x| |]; [|done..].
  destruct (transfer_throws xs); [done|]. intros [= <- <-].
  assert (length (take pos xs) = pos) as Htake by (rewrite length_take; lia).
  assert (length (take pos xs ++ x :: drop pos xs) = S (length xs)) as Hlen by len.
  assert (S (length xs) ≤ (if length xs =? 0 then 1 else length xs * 2)) as Hcap
    by (destruct (Nat.eqb_spec (length xs) 0); lia).
  rewrite Erase_vec by lia.
  rewrite take_app_length', drop_app_ge by lia.
  rewrite Htake. replace (S pos - pos) with 1 by lia. cbn [drop].
  rewrite drop_0, take_drop.
  eexists. split; [done|]. split; [apply holds_vec; lia|done].
Qed.

(** X12.  [Erase] of the last element is [PopBack]: both leave the same
    vector, and [Erase] returns [end()]. *)
Theorem Erase_last_is_PopBack v xs :
  holds v xs → 0 < Size v →
  ∃ v', Erase (Size v - 1) v = Ok v' (end_ v') ∧ PopBack v = Ok v' ().
Proof.
  intros Hv Hsize. as_vec Hv cap. unfold Size in *. cbn [vec size_] in Hsize.
  destruct xs as [|x xs _] using rev_ind; [simpl in Hsize; lia|].
  rewrite length_snoc in *. cbn [vec size_].
  rewrite length_snoc, Nat.sub_succ, Nat.sub_0_r.
  rewrite Erase_vec, PopBack_vec by (rewrite ?length_snoc; lia).
  rewrite take_app_length, drop_ge, app_nil_r by (rewrite length_snoc; lia).
  by exists (vec xs cap).
Qed.

(** X13.  On a full vector with capacity other than 0, [Emplace(end(),
    args...)] and [EmplaceBack(args...)] do the same: the same vector in the
    same block, or the same exception, and [Emplace] returns the position
    of the element to which [EmplaceBack] returns a reference. *)
Theorem Emplace_at_end_is_EmplaceBack v xs args :
  holds v xs → Size v = Capacity v → Capacity v ≠ 0 →
  Emplace (end_ v) args v = EmplaceBack args v.
Proof.
  intros Hv Hfull Hcap. as_vec Hv cap. unfold Size, end_ in *.
  cbn [vec size_ data_ Capacity Raw.Capacity capacity_] in Hfull, Hcap |- *. subst cap.
  rewrite Emplace_full, EmplaceBack_vec by done.
  rewrite Nat.eqb_refl. destruct (Nat.ltb_spec 0 (length xs)); [|lia]. cbn [andb].
  destruct (made xs args) as [x| |]; [|by replace (Nat.max (length xs) 1) with (length xs) by lia|done].
  destruct (transfer_throws xs); [done|].
  rewrite take_ge, drop_ge by done. unfold grown.
  destruct (Nat.eqb_spec (length xs) 0); [lia|]. by rewrite Nat.eqb_refl.
Qed.

(** ** Exceptions *)

(** X14.  For an element type that is nothrow-move-constructible or
    copy-constructible, so that the elements are carried to the new block
    by a move that cannot throw or by copy, [Emplace] and both [Insert]s
    into a full vector, and [Reserve] on any vector, are all-or-nothing:
    whenever one of them throws, whatever threw, the vector is exactly as
    it was before the call. *)
Theorem insertion_throw_leaves_vector (a : allocator) v pos args value x n v' :
  strong_transfer = true →
  Size v = Capacity v ∧
    (Emplace pos args v = Throw v' ∨ Insert pos value v = Throw v' ∨
     Insert_move pos x v = Throw v')
  ∨ Reserve_in a n v = Throw v' →
  v' = v.
Proof.
  intros _ [[_ [He|[Hi|Hm]]]|Hr].
  - by apply Emplace_Throw in He.
  - destruct (Insert_cases v pos value) as [[b Hb]|[Hb|Hb]]; rewrite Hb in Hi.
    + by apply Emplace_Throw in Hi.
    + by injection Hi.
    + done.
  - by apply Emplace_Throw in Hm.
  - by apply Reserve_in_Throw in Hr.
Qed.

(** ** Reading *)

(** X15.  Reading [v[i]] gives the element at index [i] for [i < Size()];
    for any other index the assertion of [operator[]] fails, also when the
    index is below the capacity. *)
Theorem read_in_bounds v xs i :
  holds v xs →
  read v i = match xs !! i with Some x => Val x | None => Undef end ∧
  (Size v ≤ i → read v i = Undef).
Proof.
  intros Hv. as_vec Hv cap. unfold read, index, Size. vsimpl.
  destruct (Nat.ltb_spec i (length xs)) as [Hi|Hi].
  - split; [|lia]. destruct (Nat.ltb_spec i cap); [|lia]. cbn [res_bind].
    apply (get_vec xs cap i).
  - split; [|done]. by rewrite lookup_ge_None_2.
Qed.

(** ** Swap *)

(** X16.  [Swap] with another vector exchanges elements, sizes and
    capacities, both vectors keep the invariant, and swapping again gives
    both back as they were. *)
Theorem Swap_exchanges v w xs ys :
  holds v xs → holds w ys →
  ∃ v' w',
    Swap v (Other w) = (v', Other w') ∧ holds v' ys ∧ holds w' xs ∧
    Capacity v' = Capacity w ∧ Capacity w' = Capacity v ∧
    Swap v' (Other w') = (v, Other w).
Proof.
  intros Hv Hw. exists w, v. by rewrite !Swap_eq.
Qed.
End FurtherPositions.

(** ** Capacity *)

Ltac bools :=
  repeat match goal with
    | H : (_ =? _) = true |- _ => apply Nat.eqb_eq in H
    | H : (_ =? _) = false |- _ => apply Nat.eqb_neq in H
    | H : (_ <=? _) = true |- _ => apply Nat.leb_le in H
    | H : (_ <=? _) = false |- _ => apply Nat.leb_gt in H
    | H : (_ <? _) = true |- _ => apply Nat.ltb_lt in H
    | H : (_ <? _) = false |- _ => apply Nat.ltb_ge in H
    end.

(** Walk through the steps of an operation, one case per way out. *)
Ltac walk :=
  unfold Raw.Swap, Raw.store, Raw.make, Raw.at_, Raw.plus;
  repeat first
    [ progress cbn beta iota delta [try then_ no_less fst snd]
    | match goal with
      | |- no_less _ (try _ ?r _) => destruct r as [?| |] eqn:?
      | |- no_less _ (if ?c then _ else _) => destruct c eqn:?
      | |- no_less _ (let '(_, _) := ?p in _) => destruct p
      end ];
  try done;
  bools; unfold Capacity, Raw.Capacity in *; cbn [data_ capacity_] in *;
  try lia;
  try (match goal with
       | |- context [if ?c then _ else _] => destruct c eqn:?
       end; bools; lia).

Section CapacityLemmas.
Context {T : Type} `{Element T}.

Implicit Types (v w : Vector T) (xs ys : list T).

Lemma no_less_then {A B} c (o : outcome (Vector T) A)
    (k : Vector T → A → outcome (Vector T) B) :
  no_less c o → (∀ s a, c ≤ Capacity s → no_less c (k s a)) →
  no_less c (then_ o k).
Proof. destruct o; cbn; auto. Qed.

Lemma no_less_forget {A} c (o : outcome (Vector T) A) :
  no_less c o → no_less c (forget o).
Proof. by destruct o. Qed.

Lemma Reserve_no_less c n v : c ≤ Capacity v → no_less c (Reserve n v).
Proof. intros Hc. unfold Reserve. walk. Qed.

Lemma push_body_no_less c args v : c ≤ Capacity v → no_less c (push_body args v).
Proof. intros Hc. unfold push_body. walk. Qed.

Lemma reserve_first_no_less c v : c ≤ Capacity v → no_less c (reserve_first v).
Proof.
  intros Hc. unfold reserve_first. destruct (_ =? _); [|done].
  by apply Reserve_no_less.
Qed.

Lemma Emplace_no_less c pos args v :
  c ≤ Capacity v → no_less c (Emplace pos args v).
Proof. intros Hc. unfold Emplace. walk. Qed.

Lemma Vector_copy_capacity w u : Vector_copy w = Val u → Capacity u = size_ w.
Proof.
  unfold Vector_copy. destruct (uninitialized_copy_n _ _ _ _ _); [|done..].
  by intros [= <-].
Qed.

Lemma copy_assign_no_less c v other :
  c ≤ Capacity v → no_less c (copy_assign v other).
Proof.
  intros Hc. destruct other as [|w]; [done|]. unfold copy_assign.
  destruct (Capacity v <? size_ w) eqn:Hbig.
  - destruct (Vector_copy w) as [u| |] eqn:Hu; [|done..].
    apply Vector_copy_capacity in Hu. apply Nat.ltb_lt in Hbig.
    cbn [try]. rewrite Swap_with_eq.
    destruct (Vector_destroy v); cbn; first [done | lia].
  - destruct (size_ w <? size_ v);
      destruct (assign_loop _ _ _ _) as [b [[]| |]]; unfold set_buf; walk.
Qed.

Lemma step_no_less o v :
  keeps_storage o = true → no_less (Capacity v) (step o v).
Proof.
  intros Ho.
  destruct o as [value|value|args| |pos value|pos value|pos args|pos|n|n|other|[|w]|[|w]];
    cbn [step]; try done; try (cbn; lia).
  - apply no_less_then; [by apply reserve_first_no_less|].
    intros. by apply push_body_no_less.
  - apply no_less_then; [by apply reserve_first_no_less|].
    intros. by apply push_body_no_less.
  - apply no_less_forget. unfold EmplaceBack.
    apply no_less_then; [by apply reserve_first_no_less|]. intros s _ Hs.
    apply no_less_then; [by apply push_body_no_less|]. intros s' _ Hs'. walk.
  - unfold PopBack. walk.
  - apply no_less_forget.
    destruct (Insert_cases v pos value) as [[a ->]|[->| ->]];
      [by apply Emplace_no_less|cbn; lia|done].
  - apply no_less_forget. by apply Emplace_no_less.
  - apply no_less_forget. by apply Emplace_no_less.
  - apply no_less_forget. unfold Erase. walk.
  - by apply Reserve_no_less.
  - unfold Resize. destruct (_ <? _).
    + apply no_less_then.
      * destruct (_ <? _); [by apply Reserve_no_less|cbn; lia].
      * intros s _ Hs. walk.
    + walk.
  - by apply copy_assign_no_less.
Qed.
End CapacityLemmas.

Section FurtherRuns.
Context {T : Type} `{Element T}.

Implicit Types (v w : Vector T) (xs ys : list T).

(** X17.  No operation on a vector lowers its capacity, whether it returns
    or throws, except a move assignment from or a [Swap] with another
    vector: not [Resize] to a smaller size, not a copy assignment from a
    shorter vector, not [Erase] or [PopBack]. *)
Theorem capacity_never_decreases o v v' :
  keeps_storage o = true → step o v = Ok v' () ∨ step o v = Throw v' →
  Capacity v ≤ Capacity v'.
Proof.
  intros Ho Hstep. pose proof (step_no_less o v Ho) as Hle.
  by destruct Hstep as [Hstep|Hstep]; rewrite Hstep in Hle.
Qed.

Lemma push_all_within ys : ∀ xs cap,
  length xs + length ys ≤ cap → existsb copy_throws ys = false →
  push_all ys (vec xs cap) = Some (vec (xs ++ ys) cap).
Proof.
  induction ys as [|y ys IH]; intros xs cap Hlen Hcopy.
  - by rewrite app_nil_r.
  - cbn [length existsb] in *. apply orb_false_iff in Hcopy as [Hy Hys].
    cbn [push_all]. rewrite PushBack_vec by lia.
    cbn [made]. unfold copy_construct. rewrite Hy. unfold grown.
    destruct (Nat.eqb_spec (length xs) cap); [lia|].
    destruct (Nat.eqb_spec cap 0); [lia|]. cbn [andb].
    rewrite IH by (rewrite ?length_snoc; first [done | lia]).
    by rewrite <- app_assoc.
Qed.

(** X18.  Starting from a vector that satisfies the invariant, every run of
    operations none of which is an insertion into a vector with spare
    capacity, in which no [Reserve] or [Resize] asks for a size whose byte
    count wraps around, and whose other vectors satisfy the invariant, ends
    in a vector that satisfies it.  Operations that throw, also for want
    of memory, are part of the run. *)
Theorem invariant_kept_by_reallocating_runs (a : allocator) os v v' :
  invariant v = true → reallocating_in a os v = true → run_in a os v = Some v' →
  invariant v' = true ∧ Size v' ≤ Capacity v' ∧ ∃ xs, holds v' xs.
Proof.
  intros Hv Hos Hrun. pose proof (run_in_kept a os v v' Hv Hos Hrun) as Hv'.
  split; [done|]. pose proof Hv' as Hinv.
  apply invariant_holds in Hv' as [xs Hxs].
  split; [|by exists xs]. rewrite (holds_size _ _ Hxs). by destruct Hxs.
Qed.

(** X19.  After a [Reserve(n)] that returned, pushing values while the size
    stays within [n] never reallocates: every [PushBack] returns, the
    values are appended in order, and the capacity stays what [Reserve]
    left, [max(Capacity(), n)]. *)
Theorem Reserve_then_PushBack_keeps_block (a : allocator) v xs ys n v1 :
  holds v xs → n ≤ Capacity v ∨ fits a n = true →
  Reserve_in a n v = Ok v1 () →
  existsb copy_throws ys = false → Size v + length ys ≤ n →
  ∃ v2, push_all ys v1 = Some v2 ∧ holds v2 (xs ++ ys) ∧
        Capacity v2 = Capacity v1 ∧ Capacity v1 = Nat.max (Capacity v) n.
Proof.
  intros Hv Hreq Hres Hcopy Hn. as_vec Hv cap. revert Hreq Hres Hn.
  unfold Size. vsimpl. intros Hreq Hres Hn.
  assert (v1 = vec xs (Nat.max cap n)) as ->.
  { destruct (Nat.leb_spec n cap) as [Hle'|Hgt].
    - rewrite Reserve_in_le in Hres by done. injection Hres as <-.
      by replace (Nat.max cap n) with cap by lia.
    - destruct Hreq as [?|Hfits]; [lia|].
      rewrite Reserve_in_fits, Reserve_vec in Hres by done.
      revert Hres. vsimpl.
      destruct (Nat.leb_spec n cap); [lia|]. cbn [orb].
      destruct (granted a n); [|done].
      destruct (transfer_throws xs); [done|]. intros [= <-].
      by replace (Nat.max cap n) with n by lia. }
  exists (vec (xs ++ ys) (Nat.max cap n)).
  split; [apply push_all_within; [lia|done]|].
  split; [apply holds_vec; rewrite length_app; lia|done].
Qed.

(** ** The vector as a stack *)

Lemma by_move_no_throw xs : by_move = true → transfer_throws xs = false.
Proof. unfold transfer_throws. by intros ->. Qed.

(** X20.  For an element type that reallocation moves, a run of
    [PushBack(T&&)] and [PopBack] does to the elements what the same pushes
    and pops do to a stack: the run fails exactly when a [PopBack] meets an
    empty vector, and otherwise the elements are those of the stack and the
    size is the former size plus the pushes minus the pops. *)
Theorem push_pop_run_is_stack os : ∀ v xs,
  by_move = true → holds v xs →
  match stack_run os xs with
  | Some ys =>
      ∃ v', run (to_op <$> os) v = Some v' ∧ holds v' ys ∧
            Size v' + pops os = Size v + pushes os
  | None => run (to_op <$> os) v = None
  end.
Proof.
  induction os as [|[x|] os IH]; intros v xs Hmove Hv.
  - exists v. by cbn.
  - as_vec Hv cap. cbn [stack_run fmap list_fmap to_op run step pushes pops].
    rewrite PushBack_move_vec, by_move_no_throw, andb_false_r by done.
    pose proof (grown_gt (length xs) cap Hle) as Hgt.
    specialize (IH (vec (xs ++ [x]) (grown (length xs) cap)) (xs ++ [x]) Hmove).
    destruct (stack_run os (xs ++ [x])) as [ys|].
    + destruct IH as (v' & Hrun & Hys & Hsize);
        [apply holds_vec; rewrite length_snoc; lia|].
      exists v'. split; [done|]. split; [done|].
      revert Hsize. unfold Size. cbn [vec size_]. rewrite length_snoc. lia.
    + apply IH. apply holds_vec. rewrite length_snoc. lia.
  - as_vec Hv cap. cbn [stack_run fmap list_fmap to_op run step pushes pops].
    destruct xs as [|x xs _] using rev_ind.
    { by cbn. }
    rewrite length_snoc in Hle. rewrite PopBack_vec by lia.
    assert (take (length (xs ++ [x]) - 1) (xs ++ [x]) = xs) as Hpop.
    { rewrite length_snoc, Nat.sub_succ, Nat.sub_0_r. apply take_app_length. }
    specialize (IH (vec xs cap) xs Hmove).
    destruct (xs ++ [x]) as [|z zs] eqn:Hzs; [by destruct xs|].
    rewrite Hpop.
    destruct (stack_run os xs) as [ys|].
    + destruct IH as (v' & Hrun & Hys & Hsize); [apply holds_vec; lia|].
      exists v'. split; [done|]. split; [done|].
      revert Hsize. unfold Size. cbn [vec size_].
      rewrite <- Hzs, length_snoc. lia.
    + apply IH. apply holds_vec. lia.
Qed.

(** ** Copy assignment within the capacity *)

Lemma copy_assign_fits_vec xs cap ys capw :
  length xs ≤ cap → length ys ≤ capw → length ys ≤ cap →
  ∃ k, k ≤ length xs ∧ k ≤ length ys ∧
    copy_assign (vec xs cap) (Other (vec ys capw))
    = if assignment_throws xs cap ys then Throw (vec (take k ys ++ drop k xs) cap)
      else Ok (vec ys cap) ().
Proof.
  intros Hle Hlew Hfits. unfold copy_assign, assignment_throws. vsimpl.
  destruct (Nat.ltb_spec cap (length ys)) as [Hbig|_]; [lia|].
  destruct (Nat.ltb_spec (length ys) (length xs)) as [Hshrink|Hgrow].
  - rewrite take_ge, drop_ge by lia. cbn [existsb]. rewrite orb_false_r.
    destruct (assign_loop_at ((Live <$> ys) ++ replicate (capw - length ys) Raw)
                ((Live <$> xs) ++ replicate (cap - length xs) Raw)
                ys (take (length ys) xs) (replicate (capw - length ys) Raw)
                ((Live <$> drop (length ys) xs) ++ replicate (cap - length xs) Raw)
                (length ys))
      as (k & Hk & Hall & ->); [done| |len|done|].
    { by rewrite app_assoc, <- fmap_app, take_drop. }
    exists k. split; [lia|]. split; [done|].
    destruct (existsb assign_throws ys).
    + assert (take k ys ++ drop k xs
              = (take k ys ++ drop k (take (length ys) xs)) ++ drop (length ys) xs)
        as ->.
      { rewrite <- app_assoc. f_equal.
        rewrite <- (take_drop (length ys) xs) at 1.
        by rewrite drop_app_le by len. }
      f_equal. rewrite app_assoc, <- fmap_app. apply set_buf_vec; [len|done].
    + rewrite Hall, take_ge, drop_ge by (first [done | len]).
      rewrite app_nil_r.
      rewrite (destroy_n_at _ (drop (length ys) xs) (Live <$> ys)
                 (replicate (cap - length xs) Raw)) by (first [done | len]).
      cbn [try]. f_equal. apply vec_eq; [|done].
      f_equal. rewrite <- replicate_add. len.
  - destruct (assign_loop_at ((Live <$> ys) ++ replicate (capw - length ys) Raw)
                ((Live <$> xs) ++ replicate (cap - length xs) Raw)
                (take (length xs) ys) xs
                ((Live <$> drop (length xs) ys) ++ replicate (capw - length ys) Raw)
                (replicate (cap - length xs) Raw)
                (length xs))
      as (k & Hk & Hall & ->); [|done|len|len|].
    { by rewrite app_assoc, <- fmap_app, take_drop. }
    rewrite length_take in Hk.
    destruct (existsb assign_throws (take (length xs) ys)); cbn [orb].
    + exists k. split; [lia|]. split; [lia|].
      f_equal. rewrite take_take. replace (k `min` length xs) with k by lia.
      apply set_buf_vec; [len|done].
    + rewrite Hall, take_ge, drop_ge by (first [done | len]).
      rewrite app_nil_r.
      exists (length xs). split; [done|]. split; [done|].
      rewrite drop_all, app_nil_r.
      rewrite (uninitialized_copy_n_at _ _ (drop (length xs) ys)
                 (Live <$> take (length xs) ys) (replicate (capw - length ys) Raw)
                 (Live <$> take (length xs) ys)
                 (replicate (length ys - length xs) Raw)
                 (replicate (cap - length ys) Raw)).
      2:{ by rewrite app_assoc, <- fmap_app, take_drop. }
      2:{ f_equal. rewrite <- replicate_add. len. }
      2-5: len.
      destruct (existsb copy_throws _); cbn [try].
      * f_equal. apply set_buf_vec; [len|done].
      * f_equal. apply vec_eq; [|done].
        by rewrite app_assoc, <- fmap_app, take_drop.
Qed.

(** X21.  A copy assignment from another vector whose size is within the
    capacity never reallocates: the capacity is unchanged whether it
    returns or throws.  When it throws, the size is unchanged and the
    elements are a prefix of the source's followed by the former ones at
    the remaining indices. *)
Theorem copy_assign_within_capacity v w xs ys :
  holds v xs → holds w ys → Size w ≤ Capacity v →
  (∀ v', copy_assign v (Other w) = Ok v' () →
     holds v' ys ∧ Capacity v' = Capacity v) ∧
  (∀ v', copy_assign v (Other w) = Throw v' →
     ∃ k, k ≤ Size v ∧ k ≤ Size w ∧ holds v' (take k ys ++ drop k xs) ∧
          Size v' = Size v ∧ Capacity v' = Capacity v) ∧
  (existsb copy_throws ys = false → existsb assign_throws ys = false →
   copy_assign v (Other w) = Ok (vec ys (Capacity v)) ()).
Proof.
  intros Hv Hw Hfits. as_vec Hv cap. as_vec Hw capw.
  unfold Size in *. cbn [vec size_ data_ Capacity Raw.Capacity capacity_] in *.
  destruct (copy_assign_fits_vec xs cap ys capw) as (k & Hkx & Hky & ->); [done..|].
  assert (length (take k ys ++ drop k xs) = length xs) as Hlen by len.
  split; [|split].
  - intros v'. destruct (assignment_throws _ _ _); [done|]. intros [= <-].
    split; [by apply holds_vec|done].
  - intros v'. destruct (assignment_throws _ _ _); [|done]. intros [= <-].
    exists k. split; [done|]. split; [done|].
    split; [apply holds_vec; lia|]. by cbn [vec size_ data_ capacity_].
  - intros Hcopy Hassign. by rewrite assignment_throws_none.
Qed.
End FurtherRuns.

(** ** The further properties at concrete vectors *)

Lemma PopBack_removes_last_element_witness :
  (3 = 0 → PopBack (vec [1; 2; 3]%Z 4) = UB) ∧
  (0 < 3 →
   ∃ v', PopBack (vec [1; 2; 3]%Z 4) = Ok v' () ∧ holds v' [1; 2]%Z ∧
         Size v' = 2 ∧ Capacity v' = 4).
Proof.
  assert (holds (vec [1; 2; 3]%Z 4) [1; 2; 3]%Z) as Hv by holds_here.
  exact (PopBack_removes_last_element _ _ Hv).
Defined.

Lemma PopBack_undoes_EmplaceBack_witness :
  ∃ v2, PopBack (vec [1; 2; 3]%Z 4) = Ok v2 () ∧ holds v2 [1; 2]%Z ∧
        Capacity v2 = 4.
Proof.
  assert (holds (vec [1; 2]%Z 2) [1; 2]%Z) as Hv by holds_here.
  assert (EmplaceBack (@Pack Z int_element 3%Z) (vec [1; 2]%Z 2)
          = Ok (vec [1; 2; 3]%Z 4) 2) as Hpush by reflexivity.
  exact (PopBack_undoes_EmplaceBack _ _ _ _ _ Hv Hpush).
Defined.

Lemma Vector_copy_fits_size_witness :
  (existsb copy_throws [1; 2]%Z = true → Vector_copy (vec [1; 2]%Z 5) = Exn) ∧
  (existsb copy_throws [1; 2]%Z = false →
   ∃ v, Vector_copy (vec [1; 2]%Z 5) = Val v ∧ holds v [1; 2]%Z ∧ Size v = 2 ∧
        Capacity v = 2).
Proof.
  assert (holds (vec [1; 2]%Z 5) [1; 2]%Z) as Hw by holds_here.
  exact (Vector_copy_fits_size _ _ Hw).
Defined.

Lemma Vector_destroy_destroys_all_witness :
  Vector_destroy (vec [1; 2]%Z 3) = Val [Raw; Raw; Raw].
Proof.
  assert (holds (vec [1; 2]%Z 3) [1; 2]%Z) as Hv by holds_here.
  exact (Vector_destroy_destroys_all _ _ Hv).
Defined.

Lemma Emplace_full_inserts_witness :
  ∃ (v' : Vector Z) ys,
    Emplace 1 (@Pack Z int_element 9%Z) (vec [1; 2; 3]%Z 3) = Ok v' 1 ∧
    holds v' ys ∧ ys = [1; 9; 2; 3]%Z ∧ ys !! 1 = Some 9%Z ∧
    (∀ i, i < 1 → ys !! i = [1; 2; 3]%Z !! i) ∧
    (∀ i, 1 ≤ i → ys !! S i = [1; 2; 3]%Z !! i) ∧
    Size v' = 4 ∧ Capacity v' = 6.
Proof.
  assert (holds (vec [1; 2; 3]%Z 3) [1; 2; 3]%Z) as Hv by holds_here.
  assert (1 ≤ 3) as Hpos by lia.
  exact (Emplace_full_inserts _ _ 1 (@Pack Z int_element 9%Z) 9%Z
           Hv eq_refl Hpos eq_refl eq_refl).
Defined.

Lemma Insert_is_Emplace_witness :
  Insert 0 (Own 2) (vec [1; 2; 3]%Z 3)
  = Emplace 0 (Lvalue (Own 2)) (vec [1; 2; 3]%Z 3).
Proof.
  assert (holds (vec [1; 2; 3]%Z 3) [1; 2; 3]%Z) as Hv by holds_here.
  assert (0 ≤ 3) as Hpos by lia.
  exact (Insert_is_Emplace _ _ 0 (Own 2) Hv Hpos).
Defined.

Lemma Erase_undoes_Emplace_full_witness :
  ∃ v2, Erase 1 (vec [1; 9; 2; 3]%Z 6) = Ok v2 1 ∧ holds v2 [1; 2; 3]%Z ∧
        Capacity v2 = 6.
Proof.
  assert (holds (vec [1; 2; 3]%Z 3) [1; 2; 3]%Z) as Hv by holds_here.
  assert (1 ≤ 3) as Hpos by lia.
  assert (Emplace 1 (@Pack Z int_element 9%Z) (vec [1; 2; 3]%Z 3)
          = Ok (vec [1; 9; 2; 3]%Z 6) 1) as Hins by reflexivity.
  exact (Erase_undoes_Emplace_full _ _ 1 _ _ _ Hv eq_refl Hpos Hins).
Defined.

Lemma Erase_last_is_PopBack_witness :
  ∃ v', Erase 2 (vec [1; 2; 3]%Z 4) = Ok v' (end_ v') ∧
        PopBack (vec [1; 2; 3]%Z 4) = Ok v' ().
Proof.
  assert (holds (vec [1; 2; 3]%Z 4) [1; 2; 3]%Z) as Hv by holds_here.
  assert (0 < 3) as Hsize by lia.
  exact (Erase_last_is_PopBack _ _ Hv Hsize).
Defined.

Lemma Emplace_at_end_is_EmplaceBack_witness :
  Emplace 2 (@Pack Z int_element 3%Z) (vec [1; 2]%Z 2)
  = EmplaceBack (@Pack Z int_element 3%Z) (vec [1; 2]%Z 2).
Proof.
  assert (holds (vec [1; 2]%Z 2) [1; 2]%Z) as Hv by holds_here.
  assert (2 ≠ 0) as Hcap by lia.
  exact (Emplace_at_end_is_EmplaceBack _ _ (@Pack Z int_element 3%Z) Hv eq_refl Hcap).
Defined.

Lemma read_in_bounds_witness :
  (read (vec [1; 2]%Z 4) 1 = Val 2%Z ∧ (2 ≤ 1 → read (vec [1; 2]%Z 4) 1 = Undef)) ∧
  (read (vec [1; 2]%Z 4) 3 = Undef ∧ (2 ≤ 3 → read (vec [1; 2]%Z 4) 3 = Undef)).
Proof.
  assert (holds (vec [1; 2]%Z 4) [1; 2]%Z) as Hv by holds_here.
  split.
  - exact (read_in_bounds _ _ 1 Hv).
  - exact (read_in_bounds _ _ 3 Hv).
Defined.

Lemma Swap_exchanges_witness :
  ∃ v' w',
    Swap (vec [1]%Z 1) (Other (vec [2; 3]%Z 4)) = (v', Other w') ∧
    holds v' [2; 3]%Z ∧ holds w' [1]%Z ∧ Capacity v' = 4 ∧ Capacity w' = 1 ∧
    Swap v' (Other w') = (vec [1]%Z 1, Other (vec [2; 3]%Z 4)).
Proof.
  assert (holds (vec [1]%Z 1) [1]%Z) as Hv by holds_here.
  assert (holds (vec [2; 3]%Z 4) [2; 3]%Z) as Hw by holds_here.
  exact (Swap_exchanges _ _ _ _ Hv Hw).
Defined.

Lemma capacity_never_decreases_witness :
  step (OpResize 1) (vec [1; 2; 3]%Z 4) = Ok (vec [1]%Z 4) () ∧ 4 ≤ 4.
Proof.
  split; [reflexivity|].
  apply (capacity_never_decreases (OpResize 1) (vec [1; 2; 3]%Z 4) (vec [1]%Z 4));
    [reflexivity | left; reflexivity].
Defined.

Lemma push_pop_run_is_stack_witness :
  (∃ v', run (to_op <$> [Push 1; Push 2; Pop; Push 3]%Z) Vector_default = Some v' ∧
         holds v' [1; 3]%Z ∧ Size v' + 1 = 0 + 3) ∧
  run (to_op <$> [Push 1%Z; Pop; Pop]) Vector_default = None.
Proof.
  assert (holds (Vector_default (T:=Z)) []) as Hv by holds_here.
  split.
  - exact (push_pop_run_is_stack [Push 1; Push 2; Pop; Push 3]%Z _ _ eq_refl Hv).
  - exact (push_pop_run_is_stack [Push 1%Z; Pop; Pop] _ _ eq_refl Hv).
Defined.

Lemma copy_assign_within_capacity_witness :
  (∀ v', copy_assign (vec [Obj 1 false; Obj 2 false] 3)
           (Other (vec [Obj 7 false; Obj 8 true; Obj 9 false] 3)) = Ok v' () →
     holds v' [Obj 7 false; Obj 8 true; Obj 9 false] ∧ Capacity v' = 3) ∧
  (∀ v', copy_assign (vec [Obj 1 false; Obj 2 false] 3)
           (Other (vec [Obj 7 false; Obj 8 true; Obj 9 false] 3)) = Throw v' →
     ∃ k, k ≤ 2 ∧ k ≤ 3 ∧
          holds v' (take k [Obj 7 false; Obj 8 true; Obj 9 false]
                    ++ drop k [Obj 1 false; Obj 2 false]) ∧
          Size v' = 2 ∧ Capacity v' = 3) ∧
  (existsb copy_throws [Obj 7 false; Obj 8 true; Obj 9 false] = false →
   existsb assign_throws [Obj 7 false; Obj 8 true; Obj 9 false] = false →
   copy_assign (vec [Obj 1 false; Obj 2 false] 3)
     (Other (vec [Obj 7 false; Obj 8 true; Obj 9 false] 3))
   = Ok (vec [Obj 7 false; Obj 8 true; Obj 9 false] 3) ()).
Proof.
  assert (holds (vec [Obj 1 false; Obj 2 false] 3) [Obj 1 false; Obj 2 false])
    as Hv by holds_here.
  assert (holds (vec [Obj 7 false; Obj 8 true; Obj 9 false] 3)
            [Obj 7 false; Obj 8 true; Obj 9 false]) as Hw by holds_here.
  assert (3 ≤ 3) as Hfits by lia.
  exact (copy_assign_within_capacity _ _ _ _ Hv Hw Hfits).
Defined.

Lemma PushBack_move_appends_witness :
  (∃ v', PushBack_move 3%Z (vec [1; 2]%Z 2) = Ok v' () ∧ holds v' [1; 2; 3]%Z ∧
         Size v' = 3 ∧ Capacity v' = 4) ∧
  (∃ v', PushBack_move 3%Z Vector_default = Ok v' () ∧ holds v' [3]%Z ∧
         Size v' = 1 ∧ Capacity v' = 1).
Proof.
  assert (holds (vec [1; 2]%Z 2) [1; 2]%Z) as Hv by holds_here.
  assert (holds (Vector_default (T:=Z)) []) as Hw by holds_here.
  split.
  - exact (PushBack_move_appends _ _ 3%Z eq_refl Hv).
  - exact (PushBack_move_appends _ _ 3%Z eq_refl Hw).
Defined.

Lemma Resize_appends_or_truncates_witness :
  Resize_in (heap_with 4 8) 4 (vec [1; 2]%Z 2) = Throw (vec [1; 2]%Z 2) ∧
  (∃ v', Resize_in (heap_with 4 1024) 4 (vec [1; 2]%Z 2) = Ok v' () ∧ Size v' = 4 ∧
         (2 < 4 → holds v' [1; 2; 0; 0]%Z ∧ Capacity v' = 4) ∧
         (4 ≤ 2 → holds v' [1; 2]%Z ∧ Capacity v' = 2)) ∧
  (∃ v', Resize_in (heap_with 4 8) 1 (vec [1; 2]%Z 2) = Ok v' () ∧ Size v' = 1 ∧
         (2 < 1 → holds v' ([1; 2]%Z ++ []) ∧ Capacity v' = 2) ∧
         (1 ≤ 2 → holds v' [1]%Z ∧ Capacity v' = 2)).
Proof.
  assert (holds (vec [1; 2]%Z 2) [1; 2]%Z) as Hv by holds_here.
  assert (Capacity (vec [1; 2]%Z 2) < 4) as Hlt by (vm_compute; lia).
  assert (1 ≤ Capacity (vec [1; 2]%Z 2)) as Hle by (vm_compute; lia).
  split; [|split].
  - exact (proj1 (Resize_appends_or_truncates (heap_with 4 8) _ _ 4 0%Z
                    eq_refl Hv eq_refl eq_refl (or_intror eq_refl)) Hlt eq_refl).
  - exact (proj2 (Resize_appends_or_truncates (heap_with 4 1024) _ _ 4 0%Z
                    eq_refl Hv eq_refl eq_refl (or_intror eq_refl))
             (or_intror eq_refl)).
  - exact (proj2 (Resize_appends_or_truncates (heap_with 4 8) _ _ 1 0%Z
                    eq_refl Hv eq_refl eq_refl (or_introl Hle)) (or_introl Hle)).
Defined.

Lemma Resize_throw_keeps_new_capacity_witness :
  ∃ v', Resize_in (heap_with 1 1024) 5 (vec [Token 1] 1) = Throw v' ∧
        holds v' [Token 1] ∧ Size v' = 1 ∧ Capacity v' = 5.
Proof.
  assert (holds (vec [Token 1] 1) [Token 1]) as Hv by holds_here.
  assert (Size (vec [Token 1] 1) < 5) as Hn by (vm_compute; lia).
  exact (Resize_throw_keeps_new_capacity (heap_with 1 1024) _ _ 5
           eq_refl Hv eq_refl eq_refl Hn (or_intror (conj eq_refl eq_refl))).
Defined.

Lemma Vector_sized_value_initialises_witness :
  (∃ v, Vector_sized_in (heap_with 4 1024) 3 = Val v ∧ holds v [0; 0; 0]%Z ∧
        Size v = 3 ∧ Capacity v = 3) ∧
  Vector_sized_in (T:=Z) (heap_with 4 8) 3 = Exn ∧
  Vector_sized_in (T:=token) (heap_with 1 1024) 3 = Exn ∧
  Vector_sized_in (T:=token) (heap_with 1 1024) 0 = Val Vector_default.
Proof.
  assert (0 < 3) as Hn by lia.
  split; [|split; [|split]].
  - destruct (Vector_sized_value_initialises (T:=Z) (heap_with 4 1024) 3 eq_refl)
      as (Hok & _).
    exact (Hok 0%Z eq_refl eq_refl).
  - destruct (Vector_sized_value_initialises (T:=Z) (heap_with 4 8) 3 eq_refl)
      as (_ & Hrefused & _).
    exact (Hrefused eq_refl).
  - destruct (Vector_sized_value_initialises (T:=token) (heap_with 1 1024) 3 eq_refl)
      as (_ & _ & Hthrow & _).
    exact (Hthrow eq_refl Hn).
  - destruct (Vector_sized_value_initialises (T:=token) (heap_with 1 1024) 3 eq_refl)
      as (_ & _ & _ & Hzero).
    exact Hzero.
Defined.

Lemma insertion_throw_leaves_vector_witness :
  Emplace 0 (@Pack obj obj_element (2, false)) (vec [Obj 1 true] 1)
  = Throw (vec [Obj 1 true] 1) ∧
  Reserve_in (heap_with 8 16) 5 (vec [Obj 1 false] 1) = Throw (vec [Obj 1 false] 1) ∧
  vec [Obj 1 true] 1 = vec [Obj 1 true] 1 ∧
  vec [Obj 1 false] 1 = vec [Obj 1 false] 1.
Proof.
  split; [reflexivity|]. split; [reflexivity|]. split.
  - apply (insertion_throw_leaves_vector (heap_with 8 16) (vec [Obj 1 true] 1) 0
             (@Pack obj obj_element (2, false)) (Ext (Obj 2 false)) (Obj 2 false) 5);
      [reflexivity|].
    left. split; [reflexivity|]. left. reflexivity.
  - apply (insertion_throw_leaves_vector (heap_with 8 16) (vec [Obj 1 false] 1) 0
             (@Pack obj obj_element (2, false)) (Ext (Obj 2 false)) (Obj 2 false) 5);
      [reflexivity|].
    right. reflexivity.
Defined.

Lemma invariant_kept_by_reallocating_runs_witness :
  invariant (vec [1]%Z 10) = true ∧ Size (vec [1]%Z 10) ≤ Capacity (vec [1]%Z 10) ∧
  ∃ xs, holds (vec [1]%Z 10) xs.
Proof.
  apply (invariant_kept_by_reallocating_runs (heap_with 4 64)
           [OpPushBack (Ext 1%Z); OpPushBack (Ext 2%Z); OpInsert 1 (Own 0);
            OpErase 0; OpReserve 10; OpReserve 100; OpPopBack]
           Vector_default (vec [1]%Z 10)); reflexivity.
Defined.

Lemma Reserve_then_PushBack_keeps_block_witness :
  ∃ v2, push_all [2; 3]%Z (vec [1]%Z 3) = Some v2 ∧
        holds v2 [1; 2; 3]%Z ∧ Capacity v2 = Capacity (vec [1]%Z 3) ∧
        Capacity (vec [1]%Z 3) = 3.
Proof.
  assert (holds (vec [1]%Z 1) [1]%Z) as Hv by holds_here.
  assert (Size (vec [1]%Z 1) + length [2; 3]%Z ≤ 3) as Hn by (vm_compute; lia).
  assert (Reserve_in (heap_with 4 1024) 3 (vec [1]%Z 1) = Ok (vec [1]%Z 3) ())
    as Hres by reflexivity.
  exact (Reserve_then_PushBack_keeps_block (heap_with 4 1024) _ _ [2; 3]%Z 3 _
           Hv (or_intror eq_refl) Hres eq_refl Hn).
Defined.
